(** * surpbayes: the gradient-based variational solvers

    A shallow embedding of [surpbayes/bayes/gradient_based/gradient_based_solver.py]:
    the vanilla engine [GDBayesSolver] and the momentum / reweighting engine
    [GradientBasedBayesSolver], with the accumulator and the trajectory log
    they drive.

    Conventions of the embedding.
    - A parameter ([ProbaParam]) is the flat list of its entries; arithmetic
      on parameters, gradients and learning rates is exact, over [Qc].
    - The score channel (variational score, KL, mean, uncertainty, refusal
      factor) keeps the three special values of the machine numbers, because
      the engine itself uses [np.inf] as a sentinel: see [xnum].
    - A Python exception is a [Raise] in the [result] monad; a warning or a
      printed line is an entry appended to a log carried by the solver.
    - The external collaborators (distribution family, loss, KL oracle,
      reweighting routine, [norm.ppf], convergence test) are the fields of
      one record, [Collab]; the general theorems hold for all of them, and
      the module [Scenario] fixes one of them for the concrete runs. *)

From Stdlib Require Import List Arith Lia Bool ZArith QArith Qcanon.
Import ListNotations.

Set Implicit Arguments.

(** ** Exceptions *)

Inductive exc : Type := IndexError | ValueError | FullMemory.

Inductive result (A : Type) : Type :=
| Ok (a : A)
| Raise (e : exc).
Arguments Ok {A} a.
Arguments Raise {A} e.

Definition bind {A B : Type} (m : result A) (f : A -> result B) : result B :=
  match m with
  | Ok a => f a
  | Raise e => Raise e
  end.

Notation "x <- m ;; k" := (bind m (fun x => k))
  (at level 61, m at next level, right associativity).
Notation "' p <- m ;; k" := (bind m (fun x => let p := x in k))
  (at level 61, p pattern, m at next level, right associativity).

(** [try: body except IndexError: handler] *)
Definition try_except_IndexError {A : Type} (body handler : result A) : result A :=
  match body with
  | Raise IndexError => handler
  | r => r
  end.

(** ** Numbers of the score channel *)

Inductive xnum : Type :=
| Fin (q : Qc)
| PInf
| NInf
| NaN.

Definition xneg (a : xnum) : xnum :=
  match a with
  | Fin q => Fin (- q)
  | PInf => NInf
  | NInf => PInf
  | NaN => NaN
  end.

Definition xadd (a b : xnum) : xnum :=
  match a, b with
  | NaN, _ | _, NaN => NaN
  | PInf, NInf | NInf, PInf => NaN
  | PInf, _ | _, PInf => PInf
  | NInf, _ | _, NInf => NInf
  | Fin p, Fin q => Fin (p + q)
  end.

Definition xsub (a b : xnum) : xnum := xadd a (xneg b).

(** the sign of a finite factor decides what an infinity becomes *)
Definition xscale_inf (pos : bool) (q : Qc) : xnum :=
  match q ?= 0 with
  | Eq => NaN
  | Gt => if pos then PInf else NInf
  | Lt => if pos then NInf else PInf
  end.

Definition xmul (a b : xnum) : xnum :=
  match a, b with
  | NaN, _ | _, NaN => NaN
  | Fin p, Fin q => Fin (p * q)
  | PInf, Fin q | Fin q, PInf => xscale_inf true q
  | NInf, Fin q | Fin q, NInf => xscale_inf false q
  | PInf, PInf | NInf, NInf => PInf
  | PInf, NInf | NInf, PInf => NInf
  end.

(** [a > b]: false as soon as one side is not a number *)
Definition xgt (a b : xnum) : bool :=
  match a, b with
  | NaN, _ | _, NaN => false
  | PInf, PInf => false
  | PInf, _ => true
  | _, PInf => false
  | NInf, _ => false
  | Fin _, NInf => true
  | Fin p, Fin q =>
      match q ?= p with
      | Lt => true
      | _ => false
      end
  end.

(** ** Arrays *)

Definition Vec : Type := list Qc.

Definition zeros (n : nat) : Vec := repeat 0 n.

Definition vscale (c : Qc) (a : Vec) : Vec := map (fun x => c * x) a.

Fixpoint zip_with (f : Qc -> Qc -> Qc) (a b : Vec) : Vec :=
  match a, b with
  | x :: a', y :: b' => f x y :: zip_with f a' b'
  | _, _ => []
  end.

(** [a + b] on two arrays of one shape. Two flat arrays of different
    lengths are refused here; numpy refuses them too unless one of them has
    a single entry, which it broadcasts: the embedding leaves broadcasting
    out, so what it says of a failure of [+] holds for arrays of more than
    one entry. *)
Definition vadd (a b : Vec) : result Vec :=
  if length a =? length b then Ok (zip_with Qcplus a b) else Raise ValueError.

(** [a[i] = x], an [IndexError] out of range *)
Fixpoint setitem (i : nat) (x : Qc) (a : Vec) : result Vec :=
  match a, i with
  | [], _ => Raise IndexError
  | _ :: a', O => Ok (x :: a')
  | y :: a', S j => a'' <- setitem j x a' ;; Ok (y :: a'')
  end.

(** [a[idx] = x] for a list of indices *)
Fixpoint setitems (idx : list nat) (x : Qc) (a : Vec) : result Vec :=
  match idx with
  | [] => Ok a
  | i :: idx' => a' <- setitem i x a ;; setitems idx' x a'
  end.

(** [a.reshape(shape)]: the entries are kept, their number has to fit *)
Definition reshape (n : nat) (a : Vec) : result Vec :=
  if length a =? n then Ok a else Raise ValueError.

(** [l[-1]] and [l[0]] *)
Definition getitem_last {A : Type} (l : list A) : result A :=
  match rev l with
  | x :: _ => Ok x
  | [] => Raise IndexError
  end.

Definition getitem_first {A : Type} (l : list A) : result A :=
  match l with
  | x :: _ => Ok x
  | [] => Raise IndexError
  end.

(** [l[i]] for a list *)
Definition getitem {A : Type} (l : list A) (i : nat) : result A :=
  match nth_error l i with
  | Some x => Ok x
  | None => Raise IndexError
  end.

Definition sum_nat (l : list nat) : nat := fold_right Nat.add 0%nat l.

Definition sum_Qc (l : list Qc) : Qc := fold_right Qcplus 0 l.

Definition Qc_of_nat (n : nat) : Qc := Q2Qc (inject_Z (Z.of_nat n)).

(** ** Trajectory log ([HistVILog]) *)

Record HistRecord : Type := {
  proba_par : Vec;
  score : xnum;
  KL : xnum;
  mean : xnum
}.

Module HistVILog.

(** Modelled from the spec: the class [HistVILog] of
    [surpbayes/bayes/hist_vi.py]. A plain sequential log of records in
    append order; [suppr n] removes and returns the [n] most recent ones,
    oldest first, and signals out of range when fewer than [n] exist;
    [proba_pars] and [VI_scores] return the histories, optionally the
    last [n] entries only. *)
Definition t : Type := list HistRecord.

Definition empty : t := [].

Definition add1 (par : Vec) (sc kl mn : xnum) (h : t) : t :=
  h ++ [{| proba_par := par; score := sc; KL := kl; mean := mn |}].

Definition add (rs : list HistRecord) (h : t) : t := h ++ rs.

Definition suppr (n : nat) (h : t) : result (list HistRecord * t) :=
  if n <=? length h
  then Ok (skipn (length h - n) h, firstn (length h - n) h)
  else Raise IndexError.

Definition last_n {A : Type} (n : option nat) (l : list A) : list A :=
  match n with
  | None => l
  | Some m => skipn (length l - m) l
  end.

Definition proba_pars (n : option nat) (h : t) : list Vec :=
  last_n n (map proba_par h).

Definition VI_scores (n : option nat) (h : t) : list xnum :=
  last_n n (map score h).

End HistVILog.

(** ** Accumulator ([AccuSampleVal], [AccuSampleValDens]) *)

Definition Sample : Type := Vec.

(** One generation: the batch of a step, its loss values and, in the
    density-tracking accumulator, the log-densities at draw time. *)
Record Generation : Type := {
  g_sample : list Sample;
  g_ldens : option (list Qc);
  g_vals : list Qc
}.

Record Accu : Type := {
  n_tot : nat;
  gens : list Generation
}.

Module AccuSampleVal.

(** Modelled from the spec: the classes [AccuSampleVal] of
    [surpbayes/accu_xy.py] and [AccuSampleValDens] of
    [surpbayes/bayes/gradient_based/accu_sample_dens.py]. Generations are
    kept in draw order under a total capacity [n_tot]; [add] fails when
    the new generation would exceed it; [extend_memory] raises the
    capacity; [suppr_gen g] removes the [g] most recent generations, all
    of them when fewer are stored. *)
Definition n_filled (a : Accu) : nat :=
  sum_nat (map (fun g => length (g_sample g)) (gens a)).

Definition create (n : nat) : Accu := {| n_tot := n; gens := [] |}.

Definition add_gen (g : Generation) (a : Accu) : result Accu :=
  if n_filled a + length (g_sample g) <=? n_tot a
  then Ok {| n_tot := n_tot a; gens := gens a ++ [g] |}
  else Raise FullMemory.

(** [AccuSampleVal.add(sample, vals)] *)
Definition add (sample : list Sample) (vals : list Qc) (a : Accu) : result Accu :=
  add_gen {| g_sample := sample; g_ldens := None; g_vals := vals |} a.

(** [AccuSampleValDens.add(sample, l_dens, vals)] *)
Definition add_dens (sample : list Sample) (l_dens vals : list Qc) (a : Accu)
  : result Accu :=
  add_gen {| g_sample := sample; g_ldens := Some l_dens; g_vals := vals |} a.

Definition extend_memory (extra : nat) (a : Accu) : Accu :=
  {| n_tot := n_tot a + extra; gens := gens a |}.

Definition suppr_gen (g : nat) (a : Accu) : Accu :=
  {| n_tot := n_tot a; gens := firstn (length (gens a) - g) (gens a) |}.

End AccuSampleVal.

(** ** External collaborators *)

Record Collab : Type := {
  (** number of entries of [proba_map.proba_param_shape] *)
  proba_param_shape : nat;
  (** [rvs p c i]: the [i]-th point that the distribution of parameter [p]
      yields when it is sampled at step [c] *)
  rvs : Vec -> nat -> nat -> Sample;
  (** [proba_map(p).log_dens] at one point *)
  log_dens : Vec -> Sample -> Qc;
  (** [proba_map.log_dens_der(p)] at one point *)
  log_dens_der : Vec -> Sample -> Vec;
  (** [proba_map.grad_kl(prior)(post, n)], called at step [c] *)
  grad_kl : Vec -> Vec -> nat -> nat -> Vec * xnum;
  (** the loss, [fun] *)
  fun_ : Sample -> Qc;
  (** [AccuSampleValDens.grad_score(proba_map, param, k, gen_decay)] *)
  grad_score : Accu -> Vec -> option nat -> Qc -> Vec * xnum * xnum;
  (** [scipy.stats.norm.ppf] *)
  norm_ppf : Qc -> xnum;
  (** [BayesSolver.check_convergence]: the flag it leaves, from the tolerances
      [xtol] and [kltol], the flag before, the committed and the proposed
      parameter *)
  check_convergence : Qc -> Qc -> bool -> Vec -> Vec -> bool
}.

(** [proba(n)]: a batch of [n] points *)
Definition draw (E : Collab) (p : Vec) (c n : nat) : list Sample :=
  map (rvs E p c) (seq 0 n).

(** [par_eval(fun, xs)], or [fun(xs)] when vectorized: index-aligned values *)
Definition par_eval (E : Collab) (xs : list Sample) : list Qc :=
  map (fun_ E) xs.

(** [gen_eval_samp] *)
Definition gen_eval_samp (E : Collab) (proba : Vec) (c n : nat)
  : list Sample * list Qc * list Qc :=
  let sample := draw E proba c n in
  let l_dens := map (log_dens E proba) sample in
  let vals := par_eval E sample in
  (sample, l_dens, vals).

(** ** Constructor arguments *)

Record Config : Type := {
  c_prior_param : Vec;
  (** the starting parameter, as the base constructor resolves it *)
  c_post_param : Vec;
  c_temperature : Qc;
  c_prev_eval : option Accu;
  c_index_train : option (list nat);
  c_eta : Qc;
  c_chain_length : nat;
  (** the batch sizes, one per scheduled step *)
  c_per_step : list nat;
  c_kltol : Qc;
  c_xtol : Qc;
  c_k : option nat;
  c_gen_decay : Qc;
  c_momentum : Qc;
  c_refuse_conf : Qc;
  c_corr_eta : Qc;
  c_n_grad_kl : nat
}.

Definition with_eta (e : Qc) (c : Config) : Config :=
  {| c_prior_param := c_prior_param c; c_post_param := c_post_param c;
     c_temperature := c_temperature c; c_prev_eval := c_prev_eval c;
     c_index_train := c_index_train c; c_eta := e;
     c_chain_length := c_chain_length c; c_per_step := c_per_step c;
     c_kltol := c_kltol c; c_xtol := c_xtol c; c_k := c_k c;
     c_gen_decay := c_gen_decay c; c_momentum := c_momentum c;
     c_refuse_conf := c_refuse_conf c; c_corr_eta := c_corr_eta c;
     c_n_grad_kl := c_n_grad_kl c |}.

(** What a step prints when it ends. *)
Inductive Msg : Type :=
| ScoreAtStep (step : nat) (sc : xnum)
| NoScoreAtStep (step : nat).

(** [list(set(range(n)).difference(idx))] *)
Definition range_difference (n : nat) (idx : list nat) : list nat :=
  filter (fun i => negb (existsb (Nat.eqb i) idx)) (seq 0 n).

(** [np.mean] of a batch that is not empty. Over [Qc] the mean of no
    value is 0, where numpy answers nan: nothing is stated below about the
    values computed from an empty batch. *)
Definition np_mean (vals : list Qc) : Qc :=
  sum_Qc vals / Qc_of_nat (length vals).

(** [np.tensordot(w, rows, (0, 0))]: the rows weighted and summed *)
Fixpoint tensordot (shape : nat) (w : list Qc) (rows : list Vec) : result Vec :=
  match w, rows with
  | [], [] => Ok (zeros shape)
  | x :: w', r :: rows' =>
      acc <- tensordot shape w' rows' ;;
      vadd (vscale x r) acc
  | _, _ => Raise ValueError
  end.

(** ** The vanilla engine, [GDBayesSolver] *)

Module GD.

(** attributes that the constructors assign and no method assigns again *)
Record Attrs : Type := {
  prior_param : Vec;
  temperature : Qc;
  chain_length : nat;
  per_step : list nat;
  kltol : Qc;
  xtol : Qc;
  n_grad_kl : nat;
  index_train : list nat;
  index_no_train : list nat
}.

Record Solver : Type := {
  attrs : Attrs;
  eta : Qc;
  _post_param : Vec;
  (** the cached distribution [proba_map(_post_param)], by its parameter *)
  _post : Vec;
  count : nat;
  converged : bool;
  accu : Accu;
  hist_log : HistVILog.t;
  out : list Msg
}.

Definition set_eta (x : Qc) (s : Solver) : Solver :=
  {| attrs := attrs s; eta := x; _post_param := _post_param s; _post := _post s;
     count := count s; converged := converged s; accu := accu s;
     hist_log := hist_log s; out := out s |}.

(** the setter of the property [post_param]: the parameter and the
    distribution cached for it *)
Definition set_post_param (p : Vec) (s : Solver) : Solver :=
  {| attrs := attrs s; eta := eta s; _post_param := p; _post := p;
     count := count s; converged := converged s; accu := accu s;
     hist_log := hist_log s; out := out s |}.

Definition set_count (n : nat) (s : Solver) : Solver :=
  {| attrs := attrs s; eta := eta s; _post_param := _post_param s; _post := _post s;
     count := n; converged := converged s; accu := accu s;
     hist_log := hist_log s; out := out s |}.

Definition set_converged (b : bool) (s : Solver) : Solver :=
  {| attrs := attrs s; eta := eta s; _post_param := _post_param s; _post := _post s;
     count := count s; converged := b; accu := accu s;
     hist_log := hist_log s; out := out s |}.

Definition set_accu (a : Accu) (s : Solver) : Solver :=
  {| attrs := attrs s; eta := eta s; _post_param := _post_param s; _post := _post s;
     count := count s; converged := converged s; accu := a;
     hist_log := hist_log s; out := out s |}.

Definition set_hist_log (h : HistVILog.t) (s : Solver) : Solver :=
  {| attrs := attrs s; eta := eta s; _post_param := _post_param s; _post := _post s;
     count := count s; converged := converged s; accu := accu s;
     hist_log := h; out := out s |}.

Definition print (m : Msg) (s : Solver) : Solver :=
  {| attrs := attrs s; eta := eta s; _post_param := _post_param s; _post := _post s;
     count := count s; converged := converged s; accu := accu s;
     hist_log := hist_log s; out := out s ++ [m] |}.

(** Modelled from the spec: [BayesSolver.set_up_accu] of
    [surpbayes/bayes/bayes_solver.py], the value-only accumulator sized
    for the sample budget of the planned steps, or the previous
    evaluations with their capacity raised by it. *)
Definition set_up_accu (per_step : list nat) (prev_eval : option Accu) : Accu :=
  match prev_eval with
  | None => AccuSampleVal.create (sum_nat per_step)
  | Some a => AccuSampleVal.extend_memory (sum_nat per_step) a
  end.

(** [GDBayesSolver.__init__], the accumulator being the one that the
    [set_up_accu] of the class under construction has built *)
Definition init_with (a : Accu) (c : Config) : Solver :=
  let n_param := length (c_prior_param c) in
  {| attrs :=
       {| prior_param := c_prior_param c;
          temperature := c_temperature c;
          chain_length := c_chain_length c;
          per_step := c_per_step c;
          kltol := c_kltol c;
          xtol := c_xtol c;
          n_grad_kl := c_n_grad_kl c;
          index_train :=
            match c_index_train c with
            | None => seq 0 n_param
            | Some idx => idx
            end;
          index_no_train :=
            match c_index_train c with
            | None => []
            | Some idx => range_difference n_param idx
            end |};
     eta := c_eta c;
     _post_param := c_post_param c;
     _post := c_post_param c;
     count := 0;
     converged := false;
     accu := a;
     hist_log := HistVILog.empty;
     out := [] |}.

Definition init (c : Config) : Solver :=
  init_with (set_up_accu (c_per_step c) (c_prev_eval c)) c.

(** Modelled from the spec: [BayesSolver.msg_end_step], which reports the
    latest score of the log and meets an [IndexError] when the log is
    empty. *)
Definition super_msg_end_step (s : Solver) : result Solver :=
  sc <- getitem_last (HistVILog.VI_scores None (hist_log s)) ;;
  Ok (print (ScoreAtStep (count s) sc) s).

Definition msg_end_step (s : Solver) : result Solver :=
  try_except_IndexError
    (super_msg_end_step s)
    (Ok (print (NoScoreAtStep (count s)) s)).

Section Engine.

Variable E : Collab.

(** the score-function gradient of [update] *)
Definition grad_expct (n_step : nat) (post_param : Vec)
           (samples : list Sample) (vals : list Qc) : result Vec :=
  let mval := np_mean vals in
  let grads := map (log_dens_der E post_param) samples in
  td <- tensordot (proba_param_shape E) (map (fun x => x - mval) vals) grads ;;
  Ok (map (fun x => x / Qc_of_nat n_step) td).

(** [- eta * (grad_expct + temperature * grad_kl)] *)
Definition step (eta temperature : Qc) (grad gkl : Vec) : result Vec :=
  g <- vadd grad (vscale temperature gkl) ;;
  Ok (vscale (- eta) g).

(** [GDBayesSolver.update]; [msg_begin_step], which only prints, is left out *)
Definition update (s : Solver) : result Solver :=
  (* Generate and evaluate new samples *)
  n_step <- getitem (per_step (attrs s)) (count s) ;;
  let samples := draw E (_post s) (count s) n_step in
  let vals := par_eval E samples in
  accu' <- AccuSampleVal.add samples vals (accu s) ;;
  let s := set_accu accu' s in
  let mval := np_mean vals in
  ge <- grad_expct n_step (_post_param s) samples vals ;;
  let '(gkl, kl) :=
    grad_kl E (prior_param (attrs s)) (_post_param s) (n_grad_kl (attrs s)) (count s) in
  stp <- step (eta s) (temperature (attrs s)) ge gkl ;;
  let score_VI := xadd (Fin mval) (xmul (Fin (temperature (attrs s))) kl) in
  let s := set_hist_log
             (HistVILog.add1 (_post_param s) score_VI kl (Fin mval) (hist_log s)) s in
  new_post_param <- vadd (_post_param s) stp ;;
  let s := set_converged
             (check_convergence E (xtol (attrs s)) (kltol (attrs s)) (converged s)
                                (_post_param s) new_post_param) s in
  let s := set_post_param new_post_param s in
  let s := set_count (count s + 1) s in
  msg_end_step s.

(** the engine called [n] times in a row *)
Fixpoint iterate (n : nat) (s : Solver) : result Solver :=
  match n with
  | O => Ok s
  | S m => s' <- update s ;; iterate m s'
  end.

End Engine.

End GD.

(** ** The robust engine, [GradientBasedBayesSolver] *)

(** The payload of a [ProbBadGrad] warning: the three numbers of its text
    (Harmful step removed; previous score, new score, UQ). *)
Record ProbBadGrad : Type := {
  w_prev_score : xnum;
  w_new_score : xnum;
  w_UQ : xnum
}.

Module GB.

(** attributes that the constructor assigns and no method assigns again *)
Record Attrs : Type := {
  momentum : Qc;
  refuse_factor : xnum;
  k : option nat;
  corr_eta : Qc;
  gen_decay : Qc;
  ini_post_param : Vec
}.

Record Solver : Type := {
  (** the state inherited from [GDBayesSolver] *)
  base : GD.Solver;
  attrs : Attrs;
  v : Vec;
  prev_score : xnum;
  bin_log : HistVILog.t;
  all_log_vi : HistVILog.t;
  stable_accu : Accu;
  warnings : list ProbBadGrad
}.

Definition set_base (b : GD.Solver) (s : Solver) : Solver :=
  {| base := b; attrs := attrs s; v := v s; prev_score := prev_score s;
     bin_log := bin_log s; all_log_vi := all_log_vi s;
     stable_accu := stable_accu s; warnings := warnings s |}.

Definition set_v (x : Vec) (s : Solver) : Solver :=
  {| base := base s; attrs := attrs s; v := x; prev_score := prev_score s;
     bin_log := bin_log s; all_log_vi := all_log_vi s;
     stable_accu := stable_accu s; warnings := warnings s |}.

Definition set_prev_score (x : xnum) (s : Solver) : Solver :=
  {| base := base s; attrs := attrs s; v := v s; prev_score := x;
     bin_log := bin_log s; all_log_vi := all_log_vi s;
     stable_accu := stable_accu s; warnings := warnings s |}.

Definition set_bin_log (h : HistVILog.t) (s : Solver) : Solver :=
  {| base := base s; attrs := attrs s; v := v s; prev_score := prev_score s;
     bin_log := h; all_log_vi := all_log_vi s;
     stable_accu := stable_accu s; warnings := warnings s |}.

Definition set_stable_accu (a : Accu) (s : Solver) : Solver :=
  {| base := base s; attrs := attrs s; v := v s; prev_score := prev_score s;
     bin_log := bin_log s; all_log_vi := all_log_vi s;
     stable_accu := a; warnings := warnings s |}.

Definition warn (w : ProbBadGrad) (s : Solver) : Solver :=
  {| base := base s; attrs := attrs s; v := v s; prev_score := prev_score s;
     bin_log := bin_log s; all_log_vi := all_log_vi s;
     stable_accu := stable_accu s; warnings := warnings s ++ [w] |}.

(** [self._post_param = p] followed by [self._post = self.proba_map(p)] *)
Definition restore_post (p : Vec) (s : Solver) : Solver :=
  set_base (GD.set_post_param p (base s)) s.

(** [set_up_accu]: the density-tracking accumulator and the stable one *)
Definition set_up_accu (per_step : list nat) (prev_eval : option Accu) : Accu * Accu :=
  (match prev_eval with
   | None => AccuSampleVal.create (sum_nat per_step)
   | Some a => AccuSampleVal.extend_memory (sum_nat per_step) a
   end,
   AccuSampleVal.create (sum_nat per_step)).

(** the final result, [OptimResultVIGB] *)
Record OptimResultVIGB : Type := {
  opti_param : Vec;
  converged : bool;
  opti_score : xnum;
  hist_param : list Vec;
  hist_score : list xnum;
  end_param : Vec;
  log_vi : HistVILog.t;
  bin_log_vi : HistVILog.t;
  sample_val : Accu
}.

Section Engine.

Variable E : Collab.

Definition init (c : Config) : Solver :=
  let '(a, st) := set_up_accu (c_per_step c) (c_prev_eval c) in
  let b := GD.init_with a (with_eta (c_eta c * (1 - c_momentum c)) c) in
  {| base := b;
     attrs :=
       {| momentum := c_momentum c;
          refuse_factor := norm_ppf E (c_refuse_conf c);
          k := c_k c;
          corr_eta := c_corr_eta c;
          gen_decay := c_gen_decay c;
          ini_post_param := GD._post_param b |};
     v := zeros (proba_param_shape E);
     prev_score := PInf;
     bin_log := HistVILog.empty;
     all_log_vi := HistVILog.empty;
     stable_accu := st;
     warnings := [] |}.

Definition gen_sample (s : Solver) : result Solver :=
  let b := base s in
  n <- getitem (GD.per_step (GD.attrs b)) (GD.count b) ;;
  let '(sample, l_dens, vals) := gen_eval_samp E (GD._post b) (GD.count b) n in
  accu' <- AccuSampleVal.add_dens sample l_dens vals (GD.accu b) ;;
  stable' <- AccuSampleVal.add sample vals (stable_accu s) ;;
  Ok (set_stable_accu stable' (set_base (GD.set_accu accu' b) s)).

(** the test of [check_bad_grad], in exact arithmetic on finite numbers
    (the machine rounds the difference and the product) *)
Definition is_bad (s : Solver) (score_VI score_UQ : xnum) : bool :=
  xgt (xsub score_VI (prev_score s)) (xmul (refuse_factor (attrs s)) score_UQ).

Definition check_bad_grad (s : Solver) (score_VI score_UQ : xnum) : bool * Solver :=
  if is_bad s score_VI score_UQ
  then (true, warn {| w_prev_score := prev_score s;
                      w_new_score := score_VI;
                      w_UQ := score_UQ |} s)
  else (false, s).

Definition get_score_grad (s : Solver) : Vec * xnum * xnum :=
  grad_score E (GD.accu (base s)) (GD._post_param (base s))
             (k (attrs s)) (gen_decay (attrs s)).

Definition mod_accu_bad_step (s : Solver) : Solver :=
  set_base (GD.set_accu (AccuSampleVal.suppr_gen 2 (GD.accu (base s))) (base s)) s.

(** the branch of [update] taken when the step is bad *)
Definition bad_step (s : Solver) : result Solver :=
  let s := set_v (zeros (proba_param_shape E)) s in
  let s := set_base (GD.set_eta (GD.eta (base s) * corr_eta (attrs s)) (base s)) s in
  (* Go back one generation and store deleted information *)
  let s := mod_accu_bad_step s in
  '(removed, h) <- HistVILog.suppr 1 (GD.hist_log (base s)) ;;
  let s := set_base (GD.set_hist_log h (base s)) s in
  let s := set_bin_log (HistVILog.add removed (bin_log s)) s in
  try_except_IndexError
    (p <- getitem_last (HistVILog.proba_pars None (GD.hist_log (base s))) ;;
     let s := restore_post p s in
     sc <- getitem_last (HistVILog.VI_scores None (GD.hist_log (base s))) ;;
     Ok (set_prev_score sc s))
    (Ok (set_prev_score PInf (restore_post (ini_post_param (attrs s)) s))).

(** the momentum of an accepted step *)
Definition new_v (eta temperature mom : Qc) (index_no_train : list nat)
           (v der_score der_KL : Vec) : result Vec :=
  g <- vadd der_score (vscale temperature der_KL) ;;
  let v_new := vscale (- eta) g in
  v_new_flat <- setitems index_no_train 0 v_new ;;
  v_new <- reshape (proba_param_shape E) v_new_flat ;;
  vadd v_new (map (fun x => x * mom) v).

(** the branch of [update] taken when the step is accepted *)
Definition good_step (s : Solver) (der_score der_KL : Vec)
           (score_VI kl m_score : xnum) : result Solver :=
  let b := base s in
  let s := set_base
             (GD.set_hist_log
                (HistVILog.add1 (GD._post_param b) score_VI kl m_score (GD.hist_log b))
                b) s in
  let b := base s in
  v' <- new_v (GD.eta b) (GD.temperature (GD.attrs b)) (momentum (attrs s))
              (GD.index_no_train (GD.attrs b)) (v s) der_score der_KL ;;
  let s := set_v v' s in
  new_post_param <- vadd (GD._post_param b) (v s) ;;
  let b := GD.set_converged
             (check_convergence E (GD.xtol (GD.attrs b)) (GD.kltol (GD.attrs b))
                                (GD.converged b) (GD._post_param b) new_post_param) b in
  let s := set_base b s in
  Ok (set_prev_score score_VI (restore_post new_post_param s)).

Definition msg_end_step (s : Solver) : result Solver :=
  try_except_IndexError
    (b <- GD.msg_end_step (base s) ;; Ok (set_base b s))
    (Ok (set_base (GD.print (NoScoreAtStep (GD.count (base s))) (base s)) s)).

(** [GradientBasedBayesSolver.update]; [msg_begin_step], which only prints,
    is left out *)
Definition update (s : Solver) : result Solver :=
  (* Generate and evaluate new samples *)
  s <- gen_sample s ;;
  (* Move parameter accordingly *)
  let b := base s in
  let '(der_score, m_score, score_UQ) := get_score_grad s in
  let '(der_KL, kl) :=
    grad_kl E (GD.prior_param (GD.attrs b)) (GD._post_param b)
            (GD.n_grad_kl (GD.attrs b)) (GD.count b) in
  let score_VI := xadd m_score (xmul (Fin (GD.temperature (GD.attrs b))) kl) in
  let '(bad, s) := check_bad_grad s score_VI score_UQ in
  s <- (if bad then bad_step s
        else good_step s der_score der_KL score_VI kl m_score) ;;
  let s := set_base (GD.set_count (GD.count (base s) + 1) (base s)) s in
  msg_end_step s.

Definition process_result (s : Solver) : result OptimResultVIGB :=
  let b := base s in
  sc <- getitem_first (HistVILog.VI_scores (Some 1%nat) (GD.hist_log b)) ;;
  Ok {| opti_param := GD._post_param b;
        converged := GD.converged b;
        opti_score := sc;
        hist_param := HistVILog.proba_pars None (GD.hist_log b);
        hist_score := HistVILog.VI_scores None (GD.hist_log b);
        end_param := GD._post_param b;
        log_vi := GD.hist_log b;
        bin_log_vi := bin_log s;
        sample_val := GD.accu b |}.

(** the engine called [n] times in a row *)
Fixpoint iterate (n : nat) (s : Solver) : result Solver :=
  match n with
  | O => Ok s
  | S m => s' <- update s ;; iterate m s'
  end.

(** *** What [update] computes between [gen_sample] and its test

    The quantities below are the local variables of [update], as
    functions of the solver that [gen_sample] returns. *)

Definition der_score (s1 : Solver) : Vec := fst (fst (get_score_grad s1)).
Definition m_score (s1 : Solver) : xnum := snd (fst (get_score_grad s1)).
Definition score_UQ (s1 : Solver) : xnum := snd (get_score_grad s1).

Definition kl_oracle (s1 : Solver) : Vec * xnum :=
  let b := base s1 in
  grad_kl E (GD.prior_param (GD.attrs b)) (GD._post_param b)
          (GD.n_grad_kl (GD.attrs b)) (GD.count b).

Definition der_KL (s1 : Solver) : Vec := fst (kl_oracle s1).
Definition kl (s1 : Solver) : xnum := snd (kl_oracle s1).

Definition score_VI (s1 : Solver) : xnum :=
  xadd (m_score s1) (xmul (Fin (GD.temperature (GD.attrs (base s1)))) (kl s1)).

(** how a call to [update] classifies its step: [true] for a bad step *)
Definition classify (s : Solver) : result bool :=
  s1 <- gen_sample s ;;
  Ok (is_bad s1 (score_VI s1) (score_UQ s1)).

(** the generation that a call to [update] draws, without its densities *)
Definition drawn (s : Solver) : result Generation :=
  let b := base s in
  n <- getitem (GD.per_step (GD.attrs b)) (GD.count b) ;;
  let '(sample, _, vals) := gen_eval_samp E (GD._post b) (GD.count b) n in
  Ok {| g_sample := sample; g_ldens := None; g_vals := vals |}.

(** the generations drawn by [n] calls in a row, rejected steps included *)
Fixpoint drawn_history (n : nat) (s : Solver) : list Generation :=
  match n with
  | O => []
  | S m =>
      match drawn s, update s with
      | Ok g, Ok s' => g :: drawn_history m s'
      | _, _ => []
      end
  end.

End Engine.

End GB.

(** ** The score-function gradient, as the specification words it

    [(1/n_t) * sum_i (value_i - mean_loss) * d log_density(sample_i)], entry
    [j] of it, over a batch [samples] drawn for the parameter [param]. *)
Definition grad_loss_spec (E : Collab) (param : Vec) (samples : list Sample) (j : nat)
  : Qc :=
  let n_t := Qc_of_nat (length samples) in
  let mean_loss := sum_Qc (map (fun_ E) samples) / n_t in
  (1 / n_t) *
  sum_Qc (map (fun x => (fun_ E x - mean_loss) * nth j (log_dens_der E param x) 0) samples).

(** that the final result carries the stable accumulator means that some
    projection of the record returns it, whatever the solver *)
Definition result_carries_stable_accu : Prop :=
  exists proj : GB.OptimResultVIGB -> Accu,
    forall (s : GB.Solver) (r : GB.OptimResultVIGB),
      GB.process_result s = Ok r -> proj r = GB.stable_accu s.

(** the accumulator invariant: what is stored fits the capacity *)
Definition accu_fits (a : Accu) : Prop := (AccuSampleVal.n_filled a <= n_tot a)%nat.

Definition prev_eval_fits (c : Config) : Prop :=
  match c_prev_eval c with
  | None => True
  | Some a => accu_fits a
  end.

(** ** Notions used to state the properties *)

(** the end of [update]: the counter, then the line printed *)
Definition finish (s : GB.Solver) : result GB.Solver :=
  GB.msg_end_step
    (GB.set_base (GD.set_count (GD.count (GB.base s) + 1) (GB.base s)) s).

(** the warning of a rejected step *)
Definition rejection (E : Collab) (s1 : GB.Solver) : ProbBadGrad :=
  {| w_prev_score := GB.prev_score s1;
     w_new_score := GB.score_VI E s1;
     w_UQ := GB.score_UQ E s1 |}.

(** that the warning identifies the rejected step means that the step can
    be read off the warning: some function of the warning returns, in every
    run, the number of the step that emitted it *)
Definition warning_identifies_step : Prop :=
  exists step_of : ProbBadGrad -> nat,
    forall (E : Collab) (c : Config) (n : nat) (s s1 : GB.Solver),
      GB.iterate E n (GB.init E c) = Ok s ->
      GB.gen_sample E s = Ok s1 ->
      GB.is_bad s1 (GB.score_VI E s1) (GB.score_UQ E s1) = true ->
      step_of (rejection E s1) = n.

(** the log entry of an accepted step *)
Definition accepted_record (E : Collab) (s1 : GB.Solver) : HistRecord :=
  {| proba_par := GD._post_param (GB.base s1);
     score := GB.score_VI E s1;
     KL := GB.kl E s1;
     mean := GB.m_score E s1 |}.

(** an empty primary log goes with an infinite previous score *)
Definition log_inv (s : GB.Solver) : Prop :=
  GD.hist_log (GB.base s) = [] -> GB.prev_score s = PInf.

(** what the remaining scheduled steps will draw *)
Definition budget_left (s : GB.Solver) : nat :=
  sum_nat (skipn (GD.count (GB.base s)) (GD.per_step (GD.attrs (GB.base s)))).

Definition cap_inv (s : GB.Solver) : Prop :=
  (AccuSampleVal.n_filled (GD.accu (GB.base s)) + budget_left s
   <= n_tot (GD.accu (GB.base s)) /\
   AccuSampleVal.n_filled (GB.stable_accu s) + budget_left s
   <= n_tot (GB.stable_accu s))%nat.

(** on the frozen entries: a zero momentum, and the initial value in the
    parameter and in every logged parameter *)
Definition frozen_inv (s : GB.Solver) : Prop :=
  forall i : nat,
    In i (GD.index_no_train (GD.attrs (GB.base s))) ->
    nth i (GB.v s) 0 = 0 /\
    nth i (GD._post_param (GB.base s)) 0 = nth i (GB.ini_post_param (GB.attrs s)) 0 /\
    forall r : HistRecord,
      In r (GD.hist_log (GB.base s)) ->
      nth i (proba_par r) 0 = nth i (GB.ini_post_param (GB.attrs s)) 0.

(** the collaborators with the loss shifted by a constant [k] *)
Definition shift_loss (k : Qc) (E : Collab) : Collab :=
  {| proba_param_shape := proba_param_shape E;
     rvs := rvs E;
     log_dens := log_dens E;
     log_dens_der := log_dens_der E;
     grad_kl := grad_kl E;
     fun_ := fun x => (fun_ E x + k)%Qc;
     grad_score := grad_score E;
     norm_ppf := norm_ppf E;
     check_convergence := check_convergence E |}.

(** ** A concrete run

    A two-entry parameter whose entry 0 is frozen, three scheduled steps of
    two points each; the reweighting routine reports a mean score of ten
    times the number of generations it holds, so the second step, which
    sees two generations, is a loss spike. *)
Module Scenario.

Definition q (a : Z) (b : positive) : Qc := Q2Qc (a # b).

Definition E0 : Collab :=
  {| proba_param_shape := 2;
     rvs := fun p c i => [1 + Qc_of_nat i; Qc_of_nat c];
     log_dens := fun _ _ => 0;
     log_dens_der := fun p x => [hd 0 x; 1];
     grad_kl := fun _ _ _ _ => ([0; 0], Fin 0);
     fun_ := fun x => hd 0 x * hd 0 x;
     grad_score :=
       fun a _ _ _ => ([1; 1], Fin (Qc_of_nat (10 * length (gens a))), Fin 1);
     norm_ppf := fun _ => Fin (q 2326 1000);
     check_convergence := fun _ _ _ _ _ => false |}.

Definition c0 : Config :=
  {| c_prior_param := [0; 0]; c_post_param := [0; 0]; c_temperature := 1;
     c_prev_eval := None; c_index_train := Some [1%nat]; c_eta := q 1 10;
     c_chain_length := 3; c_per_step := [2; 2; 2]%nat; c_kltol := 0; c_xtol := 0;
     c_k := None; c_gen_decay := 0; c_momentum := 0; c_refuse_conf := q 99 100;
     c_corr_eta := q 1 2; c_n_grad_kl := 10 |}.

(** the record of the first, accepted step *)
Definition r0 : HistRecord :=
  {| proba_par := [0; 0]; score := Fin (q 10 1); KL := Fin 0; mean := Fin (q 10 1) |}.

(** the solver after [n] calls to [update] *)
Definition run (n : nat) : GB.Solver :=
  match GB.iterate E0 n (GB.init E0 c0) with
  | Ok s => s
  | Raise _ => GB.init E0 c0
  end.

(** the vanilla engine after [n] calls to [update] *)
Definition gd_run (n : nat) : GD.Solver :=
  match GD.iterate E0 n (GD.init c0) with
  | Ok s => s
  | Raise _ => GD.init c0
  end.

(** the solver of step [n] once its generation is drawn *)
Definition sampled (n : nat) : GB.Solver :=
  match GB.gen_sample E0 (run n) with
  | Ok s => s
  | Raise _ => run n
  end.

(** the same configuration with four scheduled steps: the second and the
    fourth step are loss spikes *)
Definition c4 : Config :=
  {| c_prior_param := [0; 0]; c_post_param := [0; 0]; c_temperature := 1;
     c_prev_eval := None; c_index_train := Some [1%nat]; c_eta := q 1 10;
     c_chain_length := 4; c_per_step := [2; 2; 2; 2]%nat; c_kltol := 0; c_xtol := 0;
     c_k := None; c_gen_decay := 0; c_momentum := 0; c_refuse_conf := q 99 100;
     c_corr_eta := q 1 2; c_n_grad_kl := 10 |}.

Definition run4 (n : nat) : GB.Solver :=
  match GB.iterate E0 n (GB.init E0 c4) with
  | Ok s => s
  | Raise _ => GB.init E0 c4
  end.

Definition sampled4 (n : nat) : GB.Solver :=
  match GB.gen_sample E0 (run4 n) with
  | Ok s => s
  | Raise _ => run4 n
  end.

End Scenario.

(** * Properties *)

Local Open Scope nat_scope.

(** ** The monad, the lists and the numbers *)

Ltac inv_bind H :=
  match type of H with
  | bind ?m _ = Ok _ =>
      let e := fresh "E" in
      destruct m eqn:e; simpl in H; [ | discriminate H ]
  end.

Lemma bind_Ok_inv (A B : Type) (m : result A) (f : A -> result B) (b : B) :
  bind m f = Ok b -> exists a, m = Ok a /\ f a = Ok b.
Proof.
  destruct m as [a | e]; simpl; intros H; [ | discriminate H ].
  exists a. split; [ reflexivity | exact H ].
Qed.

Lemma getitem_last_snoc (A : Type) (l : list A) (x : A) :
  getitem_last (l ++ [x]) = Ok x.
Proof.
  unfold getitem_last. rewrite rev_app_distr. reflexivity.
Qed.

Lemma snoc_cases (A : Type) (l : list A) :
  l = [] \/ exists l' x, l = l' ++ [x].
Proof.
  induction l as [ | x l' _] using rev_ind.
  - left. reflexivity.
  - right. exists l', x. reflexivity.
Qed.

Lemma getitem_last_cases (A : Type) (l : list A) :
  (l = [] /\ getitem_last l = Raise IndexError) \/
  (exists l' x, l = l' ++ [x] /\ getitem_last l = Ok x).
Proof.
  destruct (snoc_cases l) as [-> | (l' & x & ->)].
  - left. split; reflexivity.
  - right. exists l', x. split; [ reflexivity | apply getitem_last_snoc ].
Qed.

Lemma xgt_sub_PInf (a b : xnum) : xgt (xsub a PInf) b = false.
Proof.
  destruct a, b; reflexivity.
Qed.

Lemma suppr_one_snoc (h : HistVILog.t) (r : HistRecord) :
  HistVILog.suppr 1 (h ++ [r]) = Ok ([r], h).
Proof.
  unfold HistVILog.suppr. rewrite length_app. simpl length.
  rewrite Nat.add_1_r.
  change (1 <=? S (length h)) with true.
  replace (S (length h) - 1) with (length h) by lia.
  rewrite skipn_app, firstn_app.
  rewrite skipn_all, firstn_all, Nat.sub_diag. simpl.
  rewrite app_nil_r. reflexivity.
Qed.

Lemma suppr_one_inv (h h' : HistVILog.t) (rs : list HistRecord) :
  HistVILog.suppr 1 h = Ok (rs, h') -> exists r, h = h' ++ [r] /\ rs = [r].
Proof.
  destruct (snoc_cases h) as [-> | (h0 & r & ->)].
  - discriminate.
  - rewrite suppr_one_snoc. intros H. inversion H. subst. exists r. split; reflexivity.
Qed.

(** ** One call to [update], case by case *)

Section Steps.

Variable E : Collab.

Lemma GD_msg_end_step_prints (b : GD.Solver) :
  exists m, GD.msg_end_step b = Ok (GD.print m b).
Proof.
  unfold GD.msg_end_step, GD.super_msg_end_step.
  destruct (getitem_last_cases (HistVILog.VI_scores None (GD.hist_log b)))
    as [[_ H] | (l & x & _ & H)]; rewrite H; simpl; eauto.
Qed.

Lemma msg_end_step_prints (s : GB.Solver) :
  exists m, GB.msg_end_step s = Ok (GB.set_base (GD.print m (GB.base s)) s).
Proof.
  unfold GB.msg_end_step.
  destruct (GD_msg_end_step_prints (GB.base s)) as [m H].
  rewrite H. simpl. eauto.
Qed.

Lemma finish_prints (s : GB.Solver) :
  exists m,
    finish s =
    Ok (GB.set_base
          (GD.print m (GD.set_count (GD.count (GB.base s) + 1) (GB.base s))) s).
Proof.
  unfold finish.
  destruct (msg_end_step_prints
              (GB.set_base (GD.set_count (GD.count (GB.base s) + 1) (GB.base s)) s))
    as [m H].
  exists m. rewrite H. reflexivity.
Qed.

Lemma update_unfold (s : GB.Solver) :
  GB.update E s =
  (s1 <- GB.gen_sample E s ;;
   s2 <- (if GB.is_bad s1 (GB.score_VI E s1) (GB.score_UQ E s1)
          then GB.bad_step E (GB.warn (rejection E s1) s1)
          else GB.good_step E s1 (GB.der_score E s1) (GB.der_KL E s1)
                            (GB.score_VI E s1) (GB.kl E s1) (GB.m_score E s1)) ;;
   finish s2).
Proof.
  unfold GB.update. destruct (GB.gen_sample E s) as [s1 | e]; [ | reflexivity ].
  simpl.
  unfold GB.score_VI, GB.score_UQ, GB.der_score, GB.der_KL, GB.kl, GB.m_score,
    GB.kl_oracle, rejection, GB.score_VI, GB.score_UQ, GB.m_score, GB.kl, GB.kl_oracle.
  destruct (GB.get_score_grad E s1) as [[ds ms] uq].
  destruct (grad_kl E _ _ _ _) as [dk k0].
  simpl. unfold GB.check_bad_grad.
  destruct (GB.is_bad s1 _ uq); reflexivity.
Qed.

(** [gen_sample] adds the batch of the step to both accumulators and
    touches nothing else. *)
Lemma gen_sample_inv (s s1 : GB.Solver) :
  GB.gen_sample E s = Ok s1 ->
  exists n a' st',
    let b := GB.base s in
    let sample := draw E (GD._post b) (GD.count b) n in
    getitem (GD.per_step (GD.attrs b)) (GD.count b) = Ok n /\
    AccuSampleVal.add_dens sample (map (log_dens E (GD._post b)) sample)
                           (par_eval E sample) (GD.accu b) = Ok a' /\
    AccuSampleVal.add sample (par_eval E sample) (GB.stable_accu s) = Ok st' /\
    s1 = GB.set_stable_accu st' (GB.set_base (GD.set_accu a' b) s).
Proof.
  unfold GB.gen_sample. intros H.
  inv_bind H. unfold gen_eval_samp in H.
  inv_bind H. inv_bind H. inversion H.
  exists a, a0, a1. simpl. repeat split; assumption.
Qed.

(** The branch of a bad step, once the primary log holds a record. *)
Lemma bad_step_inv (s s' : GB.Solver) :
  GB.bad_step E s = Ok s' ->
  exists h r,
    GD.hist_log (GB.base s) = h ++ [r] /\
    let s0 :=
      GB.set_bin_log (GB.bin_log s ++ [r])
        (GB.set_base
           (GD.set_hist_log h
              (GD.set_accu (AccuSampleVal.suppr_gen 2 (GD.accu (GB.base s)))
                 (GD.set_eta (GD.eta (GB.base s) * GB.corr_eta (GB.attrs s))%Qc
                    (GB.base s))))
           (GB.set_v (zeros (proba_param_shape E)) s)) in
    ((h = [] /\
      s' = GB.set_prev_score PInf
             (GB.restore_post (GB.ini_post_param (GB.attrs s)) s0)) \/
     (exists h0 r0,
         h = h0 ++ [r0] /\
         s' = GB.set_prev_score (score r0) (GB.restore_post (proba_par r0) s0))).
Proof.
  unfold GB.bad_step. intros H.
  apply bind_Ok_inv in H. destruct H as ([rs h] & Hs & H).
  simpl in Hs. apply suppr_one_inv in Hs. destruct Hs as (r & Hh & Hrs).
  exists h, r. split; [ exact Hh | ].
  subst rs. simpl in H. unfold HistVILog.add in H.
  destruct (snoc_cases h) as [Hnil | (h0 & r0 & Hsnoc)].
  - left. split; [ exact Hnil | ].
    rewrite Hnil in H. simpl in H. inversion H. rewrite Hnil. reflexivity.
  - right. exists h0, r0. split; [ exact Hsnoc | ].
    rewrite Hsnoc in H. rewrite Hsnoc.
    unfold HistVILog.proba_pars, HistVILog.VI_scores, HistVILog.last_n in H.
    simpl in H. rewrite map_app in H. simpl in H.
    rewrite getitem_last_snoc in H. simpl in H.
    rewrite map_app in H. simpl in H.
    rewrite getitem_last_snoc in H. simpl in H.
    inversion H. reflexivity.
Qed.

Lemma bad_step_total (s : GB.Solver) :
  GD.hist_log (GB.base s) <> [] -> exists s', GB.bad_step E s = Ok s'.
Proof.
  intros Hne.
  destruct (snoc_cases (GD.hist_log (GB.base s))) as [Hh | (h & r & Hh)];
    [ congruence | ].
  unfold GB.bad_step. simpl. rewrite Hh, suppr_one_snoc. simpl.
  unfold HistVILog.proba_pars, HistVILog.VI_scores, HistVILog.last_n.
  destruct (snoc_cases h) as [-> | (h0 & r0 & ->)].
  - simpl. eauto.
  - rewrite !map_app. simpl. rewrite !getitem_last_snoc. simpl. eauto.
Qed.

End Steps.

Section Runs.

Variable E : Collab.

(** The branch of an accepted step. *)
Lemma good_step_inv (s1 s2 : GB.Solver) :
  GB.good_step E s1 (GB.der_score E s1) (GB.der_KL E s1) (GB.score_VI E s1)
               (GB.kl E s1) (GB.m_score E s1) = Ok s2 ->
  exists v' p',
    let b := GB.base s1 in
    GB.new_v E (GD.eta b) (GD.temperature (GD.attrs b)) (GB.momentum (GB.attrs s1))
             (GD.index_no_train (GD.attrs b)) (GB.v s1)
             (GB.der_score E s1) (GB.der_KL E s1) = Ok v' /\
    vadd (GD._post_param b) v' = Ok p' /\
    s2 = GB.set_prev_score (GB.score_VI E s1)
           (GB.restore_post p'
              (GB.set_base
                 (GD.set_converged
                    (check_convergence E (GD.xtol (GD.attrs b)) (GD.kltol (GD.attrs b))
                                       (GD.converged b) (GD._post_param b) p')
                    (GD.set_hist_log (GD.hist_log b ++ [accepted_record E s1]) b))
                 (GB.set_v v' s1))).
Proof.
  unfold GB.good_step. intros H.
  apply bind_Ok_inv in H. destruct H as (v' & Hv & H).
  apply bind_Ok_inv in H. destruct H as (p' & Hp & H).
  exists v', p'. simpl in *. repeat split; try assumption.
  inversion H. reflexivity.
Qed.

Lemma update_cases (s s' : GB.Solver) :
  GB.update E s = Ok s' ->
  exists s1 s2,
    GB.gen_sample E s = Ok s1 /\
    finish s2 = Ok s' /\
    ((GB.is_bad s1 (GB.score_VI E s1) (GB.score_UQ E s1) = true /\
      GB.bad_step E (GB.warn (rejection E s1) s1) = Ok s2) \/
     (GB.is_bad s1 (GB.score_VI E s1) (GB.score_UQ E s1) = false /\
      GB.good_step E s1 (GB.der_score E s1) (GB.der_KL E s1) (GB.score_VI E s1)
                   (GB.kl E s1) (GB.m_score E s1) = Ok s2)).
Proof.
  rewrite update_unfold. intros H.
  apply bind_Ok_inv in H. destruct H as (s1 & H1 & H).
  apply bind_Ok_inv in H. destruct H as (s2 & H2 & H).
  exists s1, s2. split; [ exact H1 | ]. split; [ exact H | ].
  destruct (GB.is_bad s1 (GB.score_VI E s1) (GB.score_UQ E s1)); auto.
Qed.

Lemma update_cases_from (s s1 s' : GB.Solver) :
  GB.gen_sample E s = Ok s1 ->
  GB.update E s = Ok s' ->
  exists s2,
    finish s2 = Ok s' /\
    ((GB.is_bad s1 (GB.score_VI E s1) (GB.score_UQ E s1) = true /\
      GB.bad_step E (GB.warn (rejection E s1) s1) = Ok s2) \/
     (GB.is_bad s1 (GB.score_VI E s1) (GB.score_UQ E s1) = false /\
      GB.good_step E s1 (GB.der_score E s1) (GB.der_KL E s1) (GB.score_VI E s1)
                   (GB.kl E s1) (GB.m_score E s1) = Ok s2)).
Proof.
  intros Hg H. apply update_cases in H.
  destruct H as (s1' & s2 & Hg' & Hf & Hc).
  rewrite Hg in Hg'. inversion Hg'. subst s1'.
  exists s2. split; assumption.
Qed.

Lemma classify_inv (s : GB.Solver) (b : bool) :
  GB.classify E s = Ok b ->
  exists s1, GB.gen_sample E s = Ok s1 /\
             b = GB.is_bad s1 (GB.score_VI E s1) (GB.score_UQ E s1).
Proof.
  unfold GB.classify. intros H.
  apply bind_Ok_inv in H. destruct H as (s1 & H1 & H).
  exists s1. split; [ exact H1 | ]. inversion H. reflexivity.
Qed.

(** what [update] preserves holds along every run *)
Lemma iterate_invariant (P : GB.Solver -> Prop) :
  (forall s s', P s -> GB.update E s = Ok s' -> P s') ->
  forall n s0 s, P s0 -> GB.iterate E n s0 = Ok s -> P s.
Proof.
  intros Hstep. induction n as [ | n IH]; intros s0 s H0 H.
  - inversion H. subst. exact H0.
  - simpl in H. apply bind_Ok_inv in H. destruct H as (s1 & H1 & H).
    apply (IH s1 s); [ apply (Hstep s0); assumption | exact H ].
Qed.

End Runs.

(** every case of [update], with the solver it returns spelled out *)
Ltac update_split H :=
    let s1 := fresh "s1" in
    let s2 := fresh "s2" in
    let Hg := fresh "Hgen" in
    let Hf := fresh "Hfin" in
    let Hb := fresh "Hbad" in
    let Hs := fresh "Hstep" in
    let m := fresh "m" in
    let Hm := fresh "Hm" in
    apply update_cases in H;
    destruct H as (s1 & s2 & Hg & Hf & [[Hb Hs] | [Hb Hs]]);
    destruct (finish_prints s2) as [m Hm];
    rewrite Hm in Hf; inversion Hf; clear Hf Hm;
    apply gen_sample_inv in Hg;
    destruct Hg as (n_step & a' & st' & Hn & Ha & Hst & Hs1);
    [ apply bad_step_inv in Hs;
      destruct Hs as (h & r & Hh & [[Hnil Hs2] | (h0 & r0 & Hsnoc & Hs2)])
    | apply good_step_inv in Hs;
      destruct Hs as (v' & p' & Hv & Hp & Hs2) ].

Section Invariants.

Variable E : Collab.

Lemma update_attrs (s s' : GB.Solver) :
  GB.update E s = Ok s' ->
  GB.attrs s' = GB.attrs s /\ GD.attrs (GB.base s') = GD.attrs (GB.base s).
Proof.
  intros H. update_split H; subst; simpl; split; reflexivity.
Qed.

Lemma update_count (s s' : GB.Solver) :
  GB.update E s = Ok s' -> GD.count (GB.base s') = GD.count (GB.base s) + 1.
Proof.
  intros H. update_split H; subst; simpl; reflexivity.
Qed.

Lemma log_inv_init (c : Config) : log_inv (GB.init E c).
Proof.
  intros _. unfold GB.init. destruct (GB.set_up_accu _ _). reflexivity.
Qed.

Lemma log_inv_update (s s' : GB.Solver) :
  log_inv s -> GB.update E s = Ok s' -> log_inv s'.
Proof.
  intros _ H. unfold log_inv. update_split H; subst; simpl.
  - reflexivity.
  - intros Habs. destruct h0; discriminate Habs.
  - intros Habs. destruct (GD.hist_log (GB.base s)); discriminate Habs.
Qed.

Lemma log_inv_iterate (c : Config) (n : nat) (s : GB.Solver) :
  GB.iterate E n (GB.init E c) = Ok s -> log_inv s.
Proof.
  apply (iterate_invariant E log_inv); [ exact log_inv_update | apply log_inv_init ].
Qed.

End Invariants.

(** ** Capacity of the accumulators *)

Lemma sum_nat_app (l l' : list nat) : sum_nat (l ++ l') = sum_nat l + sum_nat l'.
Proof.
  induction l as [ | x l IH]; simpl; [ reflexivity | rewrite IH; lia ].
Qed.

Lemma sum_nat_cons (x : nat) (l : list nat) : sum_nat (x :: l) = x + sum_nat l.
Proof.
  reflexivity.
Qed.

Lemma sum_nat_firstn_le (k : nat) (l : list nat) : sum_nat (firstn k l) <= sum_nat l.
Proof.
  revert k. induction l as [ | x l IH]; intros [ | k]; simpl; try lia.
  specialize (IH k). lia.
Qed.

Lemma n_filled_add_gen (g : Generation) (a a' : Accu) :
  AccuSampleVal.add_gen g a = Ok a' ->
  n_tot a' = n_tot a /\
  gens a' = gens a ++ [g] /\
  AccuSampleVal.n_filled a' = AccuSampleVal.n_filled a + length (g_sample g) /\
  AccuSampleVal.n_filled a + length (g_sample g) <= n_tot a.
Proof.
  unfold AccuSampleVal.add_gen.
  destruct (AccuSampleVal.n_filled a + length (g_sample g) <=? n_tot a) eqn:Hle;
    [ | discriminate ].
  intros H. inversion H. subst a'. clear H. simpl.
  apply Nat.leb_le in Hle.
  repeat split; try assumption.
  unfold AccuSampleVal.n_filled. simpl.
  rewrite map_app, sum_nat_app. simpl. lia.
Qed.

Lemma add_gen_fits (g : Generation) (a : Accu) :
  AccuSampleVal.n_filled a + length (g_sample g) <= n_tot a ->
  exists a', AccuSampleVal.add_gen g a = Ok a'.
Proof.
  intros H. unfold AccuSampleVal.add_gen.
  apply Nat.leb_le in H. rewrite H. eauto.
Qed.

Lemma add_gen_overflow (g : Generation) (a : Accu) :
  n_tot a < AccuSampleVal.n_filled a + length (g_sample g) ->
  AccuSampleVal.add_gen g a = Raise FullMemory.
Proof.
  intros H. unfold AccuSampleVal.add_gen.
  apply Nat.leb_gt in H. rewrite H. reflexivity.
Qed.

Lemma n_filled_suppr_gen (g : nat) (a : Accu) :
  AccuSampleVal.n_filled (AccuSampleVal.suppr_gen g a) <= AccuSampleVal.n_filled a.
Proof.
  unfold AccuSampleVal.n_filled, AccuSampleVal.suppr_gen. simpl.
  rewrite <- firstn_map. apply sum_nat_firstn_le.
Qed.

Lemma draw_length (E : Collab) (p : Vec) (c n : nat) : length (draw E p c n) = n.
Proof.
  unfold draw. rewrite length_map, length_seq. reflexivity.
Qed.

Lemma getitem_skipn (l : list nat) (i n : nat) :
  getitem l i = Ok n -> skipn i l = n :: skipn (S i) l.
Proof.
  unfold getitem. revert i. induction l as [ | x l IH]; intros [ | i]; simpl;
    try discriminate.
  - intros H. inversion H. reflexivity.
  - intros H. rewrite (IH i H). destruct l; reflexivity.
Qed.

Lemma getitem_in_range (l : list nat) (i : nat) :
  i < length l -> exists n, getitem l i = Ok n.
Proof.
  intros H. unfold getitem.
  destruct (nth_error l i) as [n | ] eqn:Hn; [ eauto | ].
  apply nth_error_None in Hn. lia.
Qed.

Section Capacity.

Variable E : Collab.

Lemma cap_inv_init (c : Config) : prev_eval_fits c -> cap_inv (GB.init E c).
Proof.
  unfold prev_eval_fits, cap_inv, budget_left, GB.init, GB.set_up_accu.
  destruct (c_prev_eval c) as [a | ]; simpl; intros H.
  - unfold accu_fits in H. unfold AccuSampleVal.n_filled in *. simpl. lia.
  - unfold AccuSampleVal.n_filled. simpl. lia.
Qed.

Lemma cap_inv_update (s s' : GB.Solver) :
  cap_inv s -> GB.update E s = Ok s' -> cap_inv s'.
Proof.
  unfold cap_inv, budget_left. intros [Ha0 Hst0] H.
  update_split H; subst; simpl in *;
    apply getitem_skipn in Hn; rewrite Hn, sum_nat_cons in Ha0, Hst0;
    apply n_filled_add_gen in Ha; destruct Ha as (Ht & _ & Hf & _);
    apply n_filled_add_gen in Hst; destruct Hst as (Ht' & _ & Hf' & _);
    simpl in Hf, Hf'; rewrite draw_length in Hf, Hf';
    rewrite Nat.add_1_r;
    pose proof (n_filled_suppr_gen 2 a') as Hsup;
    split; lia.
Qed.

Lemma cap_inv_iterate (c : Config) (n : nat) (s : GB.Solver) :
  prev_eval_fits c -> GB.iterate E n (GB.init E c) = Ok s -> cap_inv s.
Proof.
  intros Hfit.
  apply (iterate_invariant E cap_inv); [ exact cap_inv_update | ].
  apply cap_inv_init. exact Hfit.
Qed.

(** while a scheduled step remains, the new generation fits *)
Lemma gen_sample_total (s : GB.Solver) :
  cap_inv s ->
  GD.count (GB.base s) < length (GD.per_step (GD.attrs (GB.base s))) ->
  exists s1, GB.gen_sample E s = Ok s1.
Proof.
  unfold cap_inv, budget_left. intros [Ha Hst] Hlt.
  destruct (getitem_in_range _ Hlt) as [n Hn].
  unfold GB.gen_sample. rewrite Hn. simpl.
  apply getitem_skipn in Hn. rewrite Hn, sum_nat_cons in Ha, Hst.
  unfold AccuSampleVal.add_dens, AccuSampleVal.add.
  destruct (@add_gen_fits
              {| g_sample := draw E (GD._post (GB.base s)) (GD.count (GB.base s)) n;
                 g_ldens := Some (map (log_dens E (GD._post (GB.base s)))
                                      (draw E (GD._post (GB.base s))
                                            (GD.count (GB.base s)) n));
                 g_vals := par_eval E (draw E (GD._post (GB.base s))
                                            (GD.count (GB.base s)) n) |}
              (GD.accu (GB.base s))) as [a' Ha'];
    [ simpl; rewrite draw_length; lia | ].
  rewrite Ha'. simpl.
  destruct (@add_gen_fits
              {| g_sample := draw E (GD._post (GB.base s)) (GD.count (GB.base s)) n;
                 g_ldens := None;
                 g_vals := par_eval E (draw E (GD._post (GB.base s))
                                            (GD.count (GB.base s)) n) |}
              (GB.stable_accu s)) as [st' Hst'];
    [ simpl; rewrite draw_length; lia | ].
  rewrite Hst'. simpl. eauto.
Qed.

Lemma count_iterate (n : nat) (s0 s : GB.Solver) :
  GB.iterate E n s0 = Ok s ->
  GD.count (GB.base s) = GD.count (GB.base s0) + n /\
  GB.attrs s = GB.attrs s0 /\
  GD.attrs (GB.base s) = GD.attrs (GB.base s0).
Proof.
  revert s0. induction n as [ | n IH]; intros s0 H.
  - inversion H. subst. repeat split. lia.
  - simpl in H. apply bind_Ok_inv in H. destruct H as (s1 & H1 & H).
    apply IH in H. destruct H as (Hc & Ha & Hb).
    pose proof (update_count E _ H1) as Hc1.
    destruct (update_attrs E _ H1) as [Ha1 Hb1].
    rewrite Hc, Ha, Hb, Hc1, Ha1, Hb1. repeat split. lia.
Qed.

End Capacity.

(** ** The bad-step test *)

(** C2, amended. The refusal factor is [norm.ppf(refuse_conf)], set by the
    constructor and left alone by [update]; [check_bad_grad] answers [true]
    exactly when [score_VI - prev_score > refuse_factor * score_UQ], and the
    warning it emits then, and only then, carries the previous score, the
    attempted score and the uncertainty, and nothing else; a call to
    [update] classifies its step by this test and adds that one warning to
    those already emitted. *)
Theorem check_bad_grad_threshold (E : Collab) :
  (forall c : Config,
      GB.refuse_factor (GB.attrs (GB.init E c)) = norm_ppf E (c_refuse_conf c)) /\
  (forall s s' : GB.Solver,
      GB.update E s = Ok s' ->
      GB.refuse_factor (GB.attrs s') = GB.refuse_factor (GB.attrs s)) /\
  (forall (s : GB.Solver) (sv uq : xnum),
      let bad := xgt (xsub sv (GB.prev_score s))
                     (xmul (GB.refuse_factor (GB.attrs s)) uq) in
      fst (GB.check_bad_grad s sv uq) = bad /\
      GB.warnings (snd (GB.check_bad_grad s sv uq)) =
      GB.warnings s ++
      (if bad
       then [{| w_prev_score := GB.prev_score s; w_new_score := sv; w_UQ := uq |}]
       else [])) /\
  (forall s s1 s' : GB.Solver,
      GB.gen_sample E s = Ok s1 ->
      GB.update E s = Ok s' ->
      let bad := xgt (xsub (GB.score_VI E s1) (GB.prev_score s))
                     (xmul (GB.refuse_factor (GB.attrs s)) (GB.score_UQ E s1)) in
      GB.classify E s = Ok bad /\
      GB.warnings s' = GB.warnings s ++ (if bad then [rejection E s1] else [])).
Proof.
  split; [ | split; [ | split ] ].
  - intros c. unfold GB.init. destruct (GB.set_up_accu _ _). reflexivity.
  - intros s s' H. apply update_attrs in H. destruct H as [H _]. rewrite H. reflexivity.
  - intros s sv uq. unfold GB.check_bad_grad, GB.is_bad.
    destruct (xgt _ _); simpl; split; try reflexivity.
    symmetry. apply app_nil_r.
  - intros s s1 s' Hg H. unfold GB.classify. rewrite Hg. simpl.
    assert (Hp : GB.prev_score s1 = GB.prev_score s /\ GB.attrs s1 = GB.attrs s /\
                 GB.warnings s1 = GB.warnings s).
    { apply gen_sample_inv in Hg. destruct Hg as (n & a & st & _ & _ & _ & ->).
      repeat split. }
    destruct Hp as (Hps & Hat & Hw).
    unfold GB.is_bad at 1. rewrite Hps, Hat. split; [ reflexivity | ].
    rewrite <- Hps, <- Hat, <- Hw.
    change (xgt (xsub (GB.score_VI E s1) (GB.prev_score s1))
                (xmul (GB.refuse_factor (GB.attrs s1)) (GB.score_UQ E s1)))
      with (GB.is_bad s1 (GB.score_VI E s1) (GB.score_UQ E s1)).
    clear Hps Hat Hw.
    destruct (update_cases_from E _ Hg H) as (s2 & Hf & [[Hb Hs] | [Hb Hs]]);
      destruct (finish_prints s2) as [m Hm]; rewrite Hm in Hf; inversion Hf;
      rewrite Hb; simpl.
    + apply bad_step_inv in Hs.
      destruct Hs as (h & r & _ & [[_ ->] | (h0 & r0 & _ & ->)]); reflexivity.
    + apply good_step_inv in Hs. destruct Hs as (v' & p' & _ & _ & ->).
      simpl. symmetry. apply app_nil_r.
Qed.

Lemma check_bad_grad_threshold_witness :
  GB.classify Scenario.E0 (Scenario.run 1) = Ok true /\
  GB.warnings (Scenario.run 2) =
  GB.warnings (Scenario.run 1) ++ [rejection Scenario.E0 (Scenario.sampled 1)].
Proof.
  destruct (check_bad_grad_threshold Scenario.E0) as (_ & _ & _ & H).
  destruct (H (Scenario.run 1) (Scenario.sampled 1) (Scenario.run 2)) as [Hc Hw].
  - vm_compute. reflexivity.
  - vm_compute. reflexivity.
  - split; [ exact Hc | exact Hw ].
Defined.

(** C2 as worded does not hold on one point: the warning does not identify
    the rejected step. In a run of four steps whose second and fourth
    steps are rejected, the two steps emit the same warning (previous
    score 10, new score 20, UQ 1), so no function of the warning returns
    the step. *)
Lemma warning_does_not_identify_step : ~ warning_identifies_step.
Proof.
  intros [step_of H].
  assert (H1 : step_of (rejection Scenario.E0 (Scenario.sampled4 1)) = 1).
  { apply (H Scenario.E0 Scenario.c4 1 (Scenario.run4 1) (Scenario.sampled4 1));
      vm_compute; reflexivity. }
  assert (H3 : step_of (rejection Scenario.E0 (Scenario.sampled4 3)) = 3).
  { apply (H Scenario.E0 Scenario.c4 3 (Scenario.run4 3) (Scenario.sampled4 3));
      vm_compute; reflexivity. }
  assert (Hw : rejection Scenario.E0 (Scenario.sampled4 1) =
               rejection Scenario.E0 (Scenario.sampled4 3)).
  { vm_compute. reflexivity. }
  rewrite Hw in H1. rewrite H1 in H3. discriminate H3.
Qed.

(** ** Rollback *)

Lemma gen_sample_frame (E : Collab) (s s1 : GB.Solver) :
  GB.gen_sample E s = Ok s1 ->
  GB.prev_score s1 = GB.prev_score s /\
  GB.attrs s1 = GB.attrs s /\
  GB.warnings s1 = GB.warnings s /\
  GB.v s1 = GB.v s /\
  GB.bin_log s1 = GB.bin_log s /\
  GD.hist_log (GB.base s1) = GD.hist_log (GB.base s) /\
  GD.eta (GB.base s1) = GD.eta (GB.base s) /\
  GD._post_param (GB.base s1) = GD._post_param (GB.base s) /\
  GD.attrs (GB.base s1) = GD.attrs (GB.base s) /\
  GD.count (GB.base s1) = GD.count (GB.base s).
Proof.
  intros Hg. apply gen_sample_inv in Hg.
  destruct Hg as (n & a & st & _ & _ & _ & ->). repeat split.
Qed.

Lemma init_fields (E : Collab) (c : Config) :
  GB.prev_score (GB.init E c) = PInf /\
  GD.hist_log (GB.base (GB.init E c)) = [] /\
  GD.count (GB.base (GB.init E c)) = 0 /\
  GD.per_step (GD.attrs (GB.base (GB.init E c))) = c_per_step c /\
  GB.ini_post_param (GB.attrs (GB.init E c)) = c_post_param c /\
  GD._post_param (GB.base (GB.init E c)) = c_post_param c /\
  GB.stable_accu (GB.init E c) = AccuSampleVal.create (sum_nat (c_per_step c)) /\
  GB.v (GB.init E c) = zeros (proba_param_shape E) /\
  GD.eta (GB.base (GB.init E c)) = (c_eta c * (1 - c_momentum c))%Qc.
Proof.
  unfold GB.init, GB.set_up_accu. simpl. repeat split.
Qed.

(** a later run multiplies the learning rate by [corr_eta] once per record
    that it moves to the bin log, and does nothing else to it *)
Lemma eta_iterate (E : Collab) (m : nat) (s s' : GB.Solver) :
  GB.iterate E m s = Ok s' ->
  length (GB.bin_log s) <= length (GB.bin_log s') /\
  GD.eta (GB.base s') =
  (GD.eta (GB.base s) *
   GB.corr_eta (GB.attrs s) ^ (length (GB.bin_log s') - length (GB.bin_log s)))%Qc.
Proof.
  revert s. induction m as [ | m IH]; intros s H.
  - inversion H. subst. split; [ lia | ].
    rewrite Nat.sub_diag. simpl. ring.
  - simpl in H. apply bind_Ok_inv in H. destruct H as (s1 & H1 & H).
    apply IH in H. destruct H as [Hle Heta].
    assert (Hstep :
              GB.attrs s1 = GB.attrs s /\
              ((GB.bin_log s1 = GB.bin_log s /\
                GD.eta (GB.base s1) = GD.eta (GB.base s)) \/
               (length (GB.bin_log s1) = S (length (GB.bin_log s)) /\
                GD.eta (GB.base s1) =
                (GD.eta (GB.base s) * GB.corr_eta (GB.attrs s))%Qc))).
    { update_split H1; subst; simpl; split; try reflexivity.
      - right. split; [ rewrite length_app; simpl; lia | reflexivity ].
      - right. split; [ rewrite length_app; simpl; lia | reflexivity ].
      - left. split; reflexivity. }
    destruct Hstep as [Hat [[Hbin He] | [Hbin He]]].
    + rewrite Heta, Hat, Hbin, He. split; [ rewrite <- Hbin; exact Hle | reflexivity ].
    + rewrite Heta, Hat, He. rewrite Hbin in Hle. split; [ lia | ].
      replace (length (GB.bin_log s') - length (GB.bin_log s))
        with (S (length (GB.bin_log s') - length (GB.bin_log s1))) by lia.
      simpl. ring.
Qed.

Lemma finish_frame (s2 s' : GB.Solver) :
  finish s2 = Ok s' ->
  GB.v s' = GB.v s2 /\
  GB.prev_score s' = GB.prev_score s2 /\
  GB.bin_log s' = GB.bin_log s2 /\
  GB.attrs s' = GB.attrs s2 /\
  GB.stable_accu s' = GB.stable_accu s2 /\
  GB.warnings s' = GB.warnings s2 /\
  GD.eta (GB.base s') = GD.eta (GB.base s2) /\
  GD._post_param (GB.base s') = GD._post_param (GB.base s2) /\
  GD._post (GB.base s') = GD._post (GB.base s2) /\
  GD.accu (GB.base s') = GD.accu (GB.base s2) /\
  GD.hist_log (GB.base s') = GD.hist_log (GB.base s2) /\
  GD.attrs (GB.base s') = GD.attrs (GB.base s2) /\
  GD.count (GB.base s') = GD.count (GB.base s2) + 1.
Proof.
  intros H. destruct (finish_prints s2) as [m Hm]. rewrite Hm in H.
  inversion H. repeat split.
Qed.

(** the solver that the branch of a bad step returns, field by field *)
Lemma bad_step_fields (E : Collab) (s s2 : GB.Solver) :
  GB.bad_step E s = Ok s2 ->
  exists (h : HistVILog.t) (r : HistRecord),
    GD.hist_log (GB.base s) = h ++ [r] /\
    GB.v s2 = zeros (proba_param_shape E) /\
    GD.eta (GB.base s2) = (GD.eta (GB.base s) * GB.corr_eta (GB.attrs s))%Qc /\
    GD.accu (GB.base s2) = AccuSampleVal.suppr_gen 2 (GD.accu (GB.base s)) /\
    GD.hist_log (GB.base s2) = h /\
    GB.bin_log s2 = GB.bin_log s ++ [r] /\
    GD._post (GB.base s2) = GD._post_param (GB.base s2) /\
    GB.attrs s2 = GB.attrs s /\
    GB.warnings s2 = GB.warnings s /\
    GB.stable_accu s2 = GB.stable_accu s /\
    match rev h with
    | [] =>
        GD._post_param (GB.base s2) = GB.ini_post_param (GB.attrs s) /\
        GB.prev_score s2 = PInf
    | r0 :: _ =>
        GD._post_param (GB.base s2) = proba_par r0 /\
        GB.prev_score s2 = score r0
    end.
Proof.
  intros H. apply bad_step_inv in H.
  destruct H as (h & r & Hh & [[Hnil ->] | (h0 & r0 & Hsnoc & ->)]);
    exists h, r; subst h; rewrite ?rev_app_distr; simpl; repeat split; exact Hh.
Qed.

(** C1. In a run, when [update] classifies its step as bad it returns, and
    the solver it returns has: a zero momentum; the learning rate multiplied
    by [corr_eta], which every later step of the run keeps or multiplies by
    [corr_eta] again; the accumulator without its 2 most recent generations;
    the most recent record moved from the primary log to the bin log; and
    the parameter, the cached distribution and the previous score of the
    last surviving record, or the initial parameter and an infinite
    previous score when no record survives. *)
Theorem update_rollback (E : Collab) (c : Config) (n : nat) (s : GB.Solver) :
  GB.iterate E n (GB.init E c) = Ok s ->
  GB.classify E s = Ok true ->
  exists (s1 s' : GB.Solver) (h : HistVILog.t) (r : HistRecord),
    GB.gen_sample E s = Ok s1 /\
    GB.update E s = Ok s' /\
    GB.v s' = zeros (proba_param_shape E) /\
    GD.eta (GB.base s') = (GD.eta (GB.base s) * GB.corr_eta (GB.attrs s))%Qc /\
    (forall (m : nat) (s'' : GB.Solver),
        GB.iterate E m s' = Ok s'' ->
        GD.eta (GB.base s'') =
        (GD.eta (GB.base s') *
         GB.corr_eta (GB.attrs s) ^
           (length (GB.bin_log s'') - length (GB.bin_log s')))%Qc) /\
    GD.accu (GB.base s') = AccuSampleVal.suppr_gen 2 (GD.accu (GB.base s1)) /\
    gens (GD.accu (GB.base s')) =
    firstn (length (gens (GD.accu (GB.base s))) - 1) (gens (GD.accu (GB.base s))) /\
    GD.hist_log (GB.base s) = h ++ [r] /\
    GD.hist_log (GB.base s') = h /\
    GB.bin_log s' = GB.bin_log s ++ [r] /\
    GD._post (GB.base s') = GD._post_param (GB.base s') /\
    match rev h with
    | [] =>
        GD._post_param (GB.base s') = c_post_param c /\
        GB.prev_score s' = PInf
    | r0 :: _ =>
        GD._post_param (GB.base s') = proba_par r0 /\
        GB.prev_score s' = score r0
    end.
Proof.
  intros Hrun Hbad.
  pose proof (log_inv_iterate E c n Hrun) as Hlog.
  destruct (count_iterate E n _ Hrun) as (_ & Hattrs & _).
  destruct (init_fields E c) as (_ & _ & _ & _ & Hini & _).
  apply classify_inv in Hbad. destruct Hbad as (s1 & Hg & Hb). symmetry in Hb.
  destruct (gen_sample_frame E s Hg)
    as (Hps & Hat & Hw & Hv & Hbin & Hhist & Heta & Hpar & Hgat & Hcnt).
  assert (Hne : GD.hist_log (GB.base s) <> []).
  { intros Hnil. apply Hlog in Hnil.
    unfold GB.is_bad in Hb. rewrite Hps, Hnil, xgt_sub_PInf in Hb. discriminate Hb. }
  destruct (bad_step_total E (GB.warn (rejection E s1) s1)) as [s2 Hs2].
  { simpl. rewrite Hhist. exact Hne. }
  assert (Hupd : GB.update E s = finish s2).
  { rewrite update_unfold, Hg. simpl. rewrite Hb, Hs2. reflexivity. }
  destruct (finish s2) as [s' | e] eqn:Hfin;
    [ | destruct (finish_prints s2) as [m Hm]; rewrite Hm in Hfin; discriminate Hfin ].
  destruct (finish_frame _ Hfin)
    as (Fv & Fps & Fbin & Fat & _ & _ & Feta & Fpar & Fpost & Facc & Fhist & _).
  apply bad_step_fields in Hs2.
  destruct Hs2 as (h & r & Bh & Bv & Beta & Bacc & Bhist & Bbin & Bpost & Bat & _ & _ & Bres).
  simpl in Bh, Beta, Bacc, Bbin, Bat, Bres.
  exists s1, s', h, r.
  split; [ exact Hg | ]. split; [ exact Hupd | ].
  rewrite Fv, Fps, Fbin, Feta, Fpar, Fpost, Facc, Fhist.
  rewrite Bv, Beta, Bacc, Bhist, Bbin, Bpost.
  rewrite Heta, Hat, Hbin. rewrite Hhist in Bh.
  split; [ reflexivity | ]. split; [ reflexivity | ].
  split.
  { intros k s'' Hk. apply eta_iterate in Hk. destruct Hk as [_ Hk].
    rewrite Hk. simpl. rewrite Fat, Bat, Hat, Fbin, Bbin, Hbin, Feta, Beta, Hat, Heta.
    reflexivity. }
  split; [ reflexivity | ].
  split.
  { apply gen_sample_inv in Hg. destruct Hg as (k & a & st & _ & Ha & _ & ->).
    simpl. apply n_filled_add_gen in Ha. destruct Ha as (_ & Hga & _).
    rewrite Hga, length_app. simpl.
    replace (length (gens (GD.accu (GB.base s))) + 1 - 2)
      with (length (gens (GD.accu (GB.base s))) - 1) by lia.
    rewrite firstn_app.
    replace (length (gens (GD.accu (GB.base s))) - 1
             - length (gens (GD.accu (GB.base s)))) with 0 by lia.
    simpl. apply app_nil_r. }
  split; [ exact Bh | ]. split; [ reflexivity | ]. split; [ reflexivity | ].
  split; [ reflexivity | ].
  rewrite Hat, Hattrs, Hini in Bres. exact Bres.
Qed.

Lemma update_rollback_witness :
  exists (s1 s' : GB.Solver) (h : HistVILog.t) (r : HistRecord),
    GB.gen_sample Scenario.E0 (Scenario.run 1) = Ok s1 /\
    GB.update Scenario.E0 (Scenario.run 1) = Ok s' /\
    GB.v s' = zeros 2 /\
    GD.eta (GB.base s') =
    (GD.eta (GB.base (Scenario.run 1)) * GB.corr_eta (GB.attrs (Scenario.run 1)))%Qc /\
    GD.hist_log (GB.base (Scenario.run 1)) = h ++ [r] /\
    GD.hist_log (GB.base s') = h /\
    GB.bin_log s' = GB.bin_log (Scenario.run 1) ++ [r].
Proof.
  destruct (@update_rollback Scenario.E0 Scenario.c0 1 (Scenario.run 1))
    as (s1 & s' & h & r & H1 & H2 & H3 & H4 & _ & _ & _ & H5 & H6 & H7 & _).
  - vm_compute. reflexivity.
  - vm_compute. reflexivity.
  - exists s1, s', h, r. repeat split; assumption.
Defined.

(** ** The first step, and the step after an exhausted rollback *)

(** C9. The constructor sets the previous score to plus infinity, and with
    that previous score the test of [check_bad_grad] is false whatever the
    score and the uncertainty. In a run, whenever the primary log is empty
    (before the first call, and after a rollback that removed its last
    record) the previous score is plus infinity; so, while a scheduled step
    remains, [update] classifies the step as not bad, and when it returns
    it has logged the step, emitted no warning and taken its score as the
    previous one. *)
Theorem first_step_never_bad (E : Collab) (c : Config) (n : nat) (s : GB.Solver) :
  prev_eval_fits c ->
  GB.iterate E n (GB.init E c) = Ok s ->
  GD.hist_log (GB.base s) = [] ->
  n < length (c_per_step c) ->
  GB.prev_score (GB.init E c) = PInf /\
  GD.hist_log (GB.base (GB.init E c)) = [] /\
  GB.prev_score s = PInf /\
  (forall sv uq : xnum, GB.is_bad s sv uq = false) /\
  GB.classify E s = Ok false /\
  exists s1 : GB.Solver,
    GB.gen_sample E s = Ok s1 /\
    forall s' : GB.Solver,
      GB.update E s = Ok s' ->
      GD.hist_log (GB.base s') = [accepted_record E s1] /\
      GB.warnings s' = GB.warnings s /\
      GB.prev_score s' = GB.score_VI E s1.
Proof.
  intros Hfit Hrun Hempty Hlt.
  destruct (init_fields E c) as (Hp0 & Hh0 & Hc0 & Hps0 & _).
  pose proof (log_inv_iterate E c n Hrun Hempty) as Hinf.
  assert (Hbad : forall sv uq : xnum, GB.is_bad s sv uq = false).
  { intros sv uq. unfold GB.is_bad. rewrite Hinf. apply xgt_sub_PInf. }
  destruct (count_iterate E n _ Hrun) as (Hcnt & _ & Hgat).
  destruct (gen_sample_total E (s := s)) as [s1 Hg].
  { apply (cap_inv_iterate E c n); assumption. }
  { rewrite Hcnt, Hgat, Hc0, Hps0. simpl. exact Hlt. }
  destruct (gen_sample_frame E s Hg)
    as (Hps & Hat & Hw & _ & _ & Hhist & _).
  assert (Hb1 : GB.is_bad s1 (GB.score_VI E s1) (GB.score_UQ E s1) = false).
  { unfold GB.is_bad. rewrite Hps, Hinf. apply xgt_sub_PInf. }
  repeat (split; [ assumption | ]).
  split.
  { unfold GB.classify. rewrite Hg. simpl. rewrite Hb1. reflexivity. }
  exists s1. split; [ exact Hg | ].
  intros s' Hupd.
  destruct (update_cases_from E _ Hg Hupd) as (s2 & Hf & [[Hb _] | [_ Hs]]).
  { rewrite Hb1 in Hb. discriminate Hb. }
  apply finish_frame in Hf.
  destruct Hf as (_ & Fps & _ & _ & _ & Fw & _ & _ & _ & _ & Fhist & _).
  apply good_step_inv in Hs. destruct Hs as (v' & p' & _ & _ & ->).
  rewrite Fps, Fw, Fhist. simpl. rewrite Hhist, Hempty, Hw. repeat split.
Qed.

Lemma first_step_never_bad_witness :
  GB.prev_score (Scenario.run 2) = PInf /\
  GB.classify Scenario.E0 (Scenario.run 2) = Ok false.
Proof.
  destruct (@first_step_never_bad Scenario.E0 Scenario.c0 2 (Scenario.run 2))
    as (_ & _ & H1 & _ & H2 & _).
  - exact I.
  - vm_compute. reflexivity.
  - vm_compute. reflexivity.
  - simpl. lia.
  - split; assumption.
Defined.

(** ** The two accumulators along a run *)

Lemma suppr_gen_after_add (g : Generation) (a a' : Accu) :
  AccuSampleVal.add_gen g a = Ok a' ->
  gens (AccuSampleVal.suppr_gen 2 a') = firstn (length (gens a) - 1) (gens a).
Proof.
  intros Ha. apply n_filled_add_gen in Ha. destruct Ha as (_ & Hga & _).
  simpl. rewrite Hga, length_app. simpl.
  replace (length (gens a) + 1 - 2) with (length (gens a) - 1) by lia.
  rewrite firstn_app.
  replace (length (gens a) - 1 - length (gens a)) with 0 by lia.
  simpl. apply app_nil_r.
Qed.

Lemma gen_sample_drawn (E : Collab) (s s1 : GB.Solver) :
  GB.gen_sample E s = Ok s1 ->
  exists g : Generation,
    GB.drawn E s = Ok g /\
    gens (GB.stable_accu s1) = gens (GB.stable_accu s) ++ [g] /\
    n_tot (GB.stable_accu s1) = n_tot (GB.stable_accu s) /\
    exists ld : list Qc,
      gens (GD.accu (GB.base s1)) =
      gens (GD.accu (GB.base s)) ++
      [{| g_sample := g_sample g; g_ldens := Some ld; g_vals := g_vals g |}].
Proof.
  intros Hg. apply gen_sample_inv in Hg.
  destruct Hg as (n & a & st & Hn & Ha & Hst & ->). simpl in *.
  eexists. split.
  - unfold GB.drawn. rewrite Hn. simpl. reflexivity.
  - apply n_filled_add_gen in Ha. destruct Ha as (_ & Hga & _).
    apply n_filled_add_gen in Hst. destruct Hst as (Hnt & Hgst & _).
    simpl. split; [ exact Hgst | ]. split; [ exact Hnt | ].
    eexists. exact Hga.
Qed.

Lemma update_stable_accu (E : Collab) (s s' : GB.Solver) :
  GB.update E s = Ok s' ->
  exists g : Generation,
    GB.drawn E s = Ok g /\
    gens (GB.stable_accu s') = gens (GB.stable_accu s) ++ [g] /\
    n_tot (GB.stable_accu s') = n_tot (GB.stable_accu s).
Proof.
  intros H. apply update_cases in H.
  destruct H as (s1 & s2 & Hg & Hf & Hc).
  destruct (gen_sample_drawn E s Hg) as (g & Hd & Hgs & Hnt & _).
  exists g. split; [ exact Hd | ].
  apply finish_frame in Hf. destruct Hf as (_ & _ & _ & _ & Fst & _).
  rewrite Fst.
  destruct Hc as [[_ Hs] | [_ Hs]].
  - apply bad_step_fields in Hs.
    destruct Hs as (h & r & _ & _ & _ & _ & _ & _ & _ & _ & _ & Bst & _).
    rewrite Bst. simpl. split; assumption.
  - apply good_step_inv in Hs. destruct Hs as (v' & p' & _ & _ & ->).
    simpl. split; assumption.
Qed.

Lemma stable_accu_iterate (E : Collab) (n : nat) (s0 s : GB.Solver) :
  GB.iterate E n s0 = Ok s ->
  gens (GB.stable_accu s) = gens (GB.stable_accu s0) ++ GB.drawn_history E n s0 /\
  length (GB.drawn_history E n s0) = n.
Proof.
  revert s0. induction n as [ | n IH]; intros s0 H.
  - inversion H. subst. simpl. rewrite app_nil_r. split; reflexivity.
  - simpl in H. apply bind_Ok_inv in H. destruct H as (s1 & H1 & H).
    destruct (update_stable_accu E s0 H1) as (g & Hd & Hgs & _).
    apply IH in H. destruct H as [Hs Hl].
    simpl. rewrite Hd, H1. simpl. rewrite Hl, Hs, Hgs, <- app_assoc.
    split; reflexivity.
Qed.

(** C10. [gen_sample], hence every call to [update], appends the generation
    it draws to the density-tracking accumulator and to the stable one; a
    bad step then leaves the density-tracking accumulator without that
    generation and the one before it, while the stable accumulator of any
    call that returns is the one before the call plus the new generation;
    after [n] calls of a run it holds the [n] generations drawn, those of
    the rejected steps included. *)
Theorem stable_accu_keeps_every_step (E : Collab) :
  (forall s s1 : GB.Solver,
      GB.gen_sample E s = Ok s1 ->
      exists g : Generation,
        GB.drawn E s = Ok g /\
        gens (GB.stable_accu s1) = gens (GB.stable_accu s) ++ [g] /\
        n_tot (GB.stable_accu s1) = n_tot (GB.stable_accu s) /\
        exists ld : list Qc,
          gens (GD.accu (GB.base s1)) =
          gens (GD.accu (GB.base s)) ++
          [{| g_sample := g_sample g; g_ldens := Some ld; g_vals := g_vals g |}]) /\
  (forall s s' : GB.Solver,
      GB.update E s = Ok s' ->
      exists g : Generation,
        GB.drawn E s = Ok g /\
        gens (GB.stable_accu s') = gens (GB.stable_accu s) ++ [g] /\
        n_tot (GB.stable_accu s') = n_tot (GB.stable_accu s)) /\
  (forall s s' : GB.Solver,
      GB.classify E s = Ok true ->
      GB.update E s = Ok s' ->
      gens (GD.accu (GB.base s')) =
      firstn (length (gens (GD.accu (GB.base s))) - 1) (gens (GD.accu (GB.base s)))) /\
  (forall (c : Config) (n : nat) (s : GB.Solver),
      GB.iterate E n (GB.init E c) = Ok s ->
      gens (GB.stable_accu s) = GB.drawn_history E n (GB.init E c) /\
      length (gens (GB.stable_accu s)) = n).
Proof.
  split; [ exact (gen_sample_drawn E) | ].
  split; [ exact (update_stable_accu E) | ].
  split.
  - intros s s' Hc Hupd.
    apply classify_inv in Hc. destruct Hc as (s1 & Hg & Hb). symmetry in Hb.
    destruct (update_cases_from E _ Hg Hupd) as (s2 & Hf & [[_ Hs] | [Hb' _]]);
      [ | rewrite Hb in Hb'; discriminate Hb' ].
    apply finish_frame in Hf.
    destruct Hf as (_ & _ & _ & _ & _ & _ & _ & _ & _ & Facc & _).
    apply bad_step_fields in Hs. destruct Hs as (h & r & _ & _ & _ & Bacc & _).
    rewrite Facc, Bacc. simpl.
    apply gen_sample_inv in Hg. destruct Hg as (k & a & st & _ & Ha & _ & ->).
    simpl. exact (suppr_gen_after_add _ _ Ha).
  - intros c n s Hrun.
    destruct (stable_accu_iterate E n _ Hrun) as [Hs Hl].
    destruct (init_fields E c) as (_ & _ & _ & _ & _ & _ & Hst & _).
    rewrite Hst in Hs. simpl in Hs. rewrite Hs. split; [ reflexivity | exact Hl ].
Qed.

Lemma stable_accu_keeps_every_step_witness :
  length (gens (GB.stable_accu (Scenario.run 3))) = 3 /\
  length (gens (GD.accu (GB.base (Scenario.run 3)))) = 1 /\
  gens (GD.accu (GB.base (Scenario.run 2))) =
  firstn (length (gens (GD.accu (GB.base (Scenario.run 1)))) - 1)
         (gens (GD.accu (GB.base (Scenario.run 1)))).
Proof.
  destruct (stable_accu_keeps_every_step Scenario.E0) as (_ & _ & Hbad & Hrun).
  split; [ | split ].
  - apply (Hrun Scenario.c0 3 (Scenario.run 3)). vm_compute. reflexivity.
  - vm_compute. reflexivity.
  - apply Hbad; vm_compute; reflexivity.
Defined.

(** ** What the branches of [update] can raise *)

Lemma vadd_raises (a b : Vec) (e : exc) : vadd a b = Raise e -> e = ValueError.
Proof.
  unfold vadd. destruct (length a =? length b); intros H; inversion H. reflexivity.
Qed.

Lemma reshape_raises (n : nat) (a : Vec) (e : exc) :
  reshape n a = Raise e -> e = ValueError.
Proof.
  unfold reshape. destruct (length a =? n); intros H; inversion H. reflexivity.
Qed.

Lemma setitem_raises (i : nat) (x : Qc) (a : Vec) (e : exc) :
  setitem i x a = Raise e -> e = IndexError.
Proof.
  revert i. induction a as [ | y a IH]; intros i H.
  - destruct i; inversion H; reflexivity.
  - destruct i as [ | j]; simpl in H; [ discriminate H | ].
    destruct (setitem j x a) as [a'' | e'] eqn:Hj; simpl in H; [ discriminate H | ].
    inversion H. subst. exact (IH j Hj).
Qed.

Lemma setitems_raises (idx : list nat) (x : Qc) (a : Vec) (e : exc) :
  setitems idx x a = Raise e -> e = IndexError.
Proof.
  revert a. induction idx as [ | i idx IH]; intros a H; simpl in H.
  - discriminate H.
  - destruct (setitem i x a) as [a' | e'] eqn:Hi; simpl in H.
    + exact (IH a' H).
    + inversion H. subst. exact (setitem_raises _ _ _ Hi).
Qed.

Lemma new_v_raises (E : Collab) (eta t mom : Qc) (idx : list nat)
      (v ds dk : Vec) (e : exc) :
  GB.new_v E eta t mom idx v ds dk = Raise e -> e <> FullMemory.
Proof.
  unfold GB.new_v. intros H.
  destruct (vadd ds (vscale t dk)) as [g | e1] eqn:H1; simpl in H;
    [ | inversion H; subst; rewrite (vadd_raises _ _ H1); discriminate ].
  destruct (setitems idx 0%Qc (vscale (- eta) g)) as [f | e2] eqn:H2; simpl in H;
    [ | inversion H; subst; rewrite (setitems_raises _ _ _ H2); discriminate ].
  destruct (reshape (proba_param_shape E) f) as [w | e3] eqn:H3; simpl in H;
    [ | inversion H; subst; rewrite (reshape_raises _ _ H3); discriminate ].
  rewrite (vadd_raises _ _ H). discriminate.
Qed.

Lemma good_step_raises (E : Collab) (s : GB.Solver) (ds dk : Vec)
      (sv k m : xnum) (e : exc) :
  GB.good_step E s ds dk sv k m = Raise e -> e <> FullMemory.
Proof.
  unfold GB.good_step. intros H.
  match type of H with
  | bind ?x _ = _ => destruct x as [v' | e1] eqn:H1; simpl in H
  end; [ | inversion H; subst; exact (new_v_raises _ _ _ _ _ _ _ _ H1) ].
  match type of H with
  | bind ?x _ = _ => destruct x as [p' | e2] eqn:H2; simpl in H
  end; [ discriminate H | ].
  inversion H. subst. rewrite (vadd_raises _ _ H2). discriminate.
Qed.

(** the branch of a bad step fails on an empty primary log only *)
Lemma bad_step_raises (E : Collab) (s : GB.Solver) (e : exc) :
  GB.bad_step E s = Raise e -> e = IndexError /\ GD.hist_log (GB.base s) = [].
Proof.
  intros H.
  destruct (snoc_cases (GD.hist_log (GB.base s))) as [Hnil | (h & r & Hh)].
  - split; [ | exact Hnil ].
    unfold GB.bad_step in H. simpl in H. rewrite Hnil in H. simpl in H.
    inversion H. reflexivity.
  - destruct (bad_step_total E s) as [s' Hs']; [ rewrite Hh; destruct h; discriminate | ].
    rewrite Hs' in H. discriminate H.
Qed.

Lemma gen_sample_raises_past_schedule (E : Collab) (s : GB.Solver) :
  length (GD.per_step (GD.attrs (GB.base s))) <= GD.count (GB.base s) ->
  GB.gen_sample E s = Raise IndexError.
Proof.
  intros H. unfold GB.gen_sample, getitem.
  apply nth_error_None in H. rewrite H. reflexivity.
Qed.

Lemma update_never_FullMemory (E : Collab) (s : GB.Solver) :
  cap_inv s -> GB.update E s <> Raise FullMemory.
Proof.
  intros Hcap. rewrite update_unfold.
  destruct (Nat.lt_ge_cases (GD.count (GB.base s))
                            (length (GD.per_step (GD.attrs (GB.base s))))) as [Hlt | Hge].
  - destruct (gen_sample_total E Hcap Hlt) as [s1 Hg]. rewrite Hg. simpl.
    destruct (GB.is_bad s1 (GB.score_VI E s1) (GB.score_UQ E s1)).
    + destruct (GB.bad_step E (GB.warn (rejection E s1) s1)) as [s2 | e] eqn:Hs; simpl.
      * destruct (finish_prints s2) as [m Hm]. rewrite Hm. discriminate.
      * apply bad_step_raises in Hs. destruct Hs as [-> _]. discriminate.
    + destruct (GB.good_step E s1 _ _ _ _ _) as [s2 | e] eqn:Hs; simpl.
      * destruct (finish_prints s2) as [m Hm]. rewrite Hm. discriminate.
      * apply good_step_raises in Hs. congruence.
  - rewrite (gen_sample_raises_past_schedule E s Hge). simpl. discriminate.
Qed.

Lemma iterate_never_FullMemory (E : Collab) (n : nat) (s : GB.Solver) :
  cap_inv s -> GB.iterate E n s <> Raise FullMemory.
Proof.
  revert s. induction n as [ | n IH]; intros s Hcap; simpl.
  - discriminate.
  - destruct (GB.update E s) as [s1 | e] eqn:H1; simpl.
    + apply IH. exact (cap_inv_update E Hcap H1).
    + pose proof (update_never_FullMemory E Hcap) as Hn. congruence.
Qed.

(** ** Capacity set at construction *)

(** C8. [set_up_accu] creates the density-tracking accumulator with capacity
    [sum(per_step)] when there are no previous evaluations, and otherwise
    takes the previous evaluations with their capacity raised by
    [sum(per_step)]; the constructor installs it. Hence, in a run, what is
    stored never exceeds the capacity, [gen_sample] returns while a
    scheduled step remains, and no call raises the capacity error; an
    [add] beyond the capacity raises it instead of storing a part. *)
Theorem set_up_accu_capacity (E : Collab) (c : Config) :
  prev_eval_fits c ->
  fst (GB.set_up_accu (c_per_step c) None) =
    AccuSampleVal.create (sum_nat (c_per_step c)) /\
  n_tot (fst (GB.set_up_accu (c_per_step c) None)) = sum_nat (c_per_step c) /\
  (forall a : Accu,
      fst (GB.set_up_accu (c_per_step c) (Some a)) =
        AccuSampleVal.extend_memory (sum_nat (c_per_step c)) a /\
      n_tot (fst (GB.set_up_accu (c_per_step c) (Some a))) =
        n_tot a + sum_nat (c_per_step c) /\
      gens (fst (GB.set_up_accu (c_per_step c) (Some a))) = gens a) /\
  GD.accu (GB.base (GB.init E c)) = fst (GB.set_up_accu (c_per_step c) (c_prev_eval c)) /\
  (forall (n : nat) (s : GB.Solver),
      GB.iterate E n (GB.init E c) = Ok s ->
      accu_fits (GD.accu (GB.base s)) /\
      accu_fits (GB.stable_accu s) /\
      (n < length (c_per_step c) -> exists s1, GB.gen_sample E s = Ok s1)) /\
  (forall n : nat, GB.iterate E n (GB.init E c) <> Raise FullMemory) /\
  (forall (g : Generation) (a : Accu),
      n_tot a < AccuSampleVal.n_filled a + length (g_sample g) ->
      AccuSampleVal.add_gen g a = Raise FullMemory).
Proof.
  intros Hfit.
  split; [ reflexivity | ].
  split; [ reflexivity | ].
  split; [ intros a; repeat split | ].
  split; [ unfold GB.init; destruct (GB.set_up_accu _ _); reflexivity | ].
  split; [ | split ].
  - intros n s Hrun.
    pose proof (cap_inv_iterate E c n Hfit Hrun) as Hcap.
    split; [ destruct Hcap as [H _]; unfold accu_fits; lia | ].
    split; [ destruct Hcap as [_ H]; unfold accu_fits; lia | ].
    intros Hlt. apply gen_sample_total; [ exact Hcap | ].
    destruct (count_iterate E n _ Hrun) as (Hcnt & _ & Hgat).
    destruct (init_fields E c) as (_ & _ & Hc0 & Hps0 & _).
    rewrite Hcnt, Hgat, Hc0, Hps0. simpl. exact Hlt.
  - intros n. apply iterate_never_FullMemory. apply cap_inv_init. exact Hfit.
  - exact add_gen_overflow.
Qed.

Lemma set_up_accu_capacity_witness :
  n_tot (GD.accu (GB.base (GB.init Scenario.E0 Scenario.c0))) = 6 /\
  (exists s1, GB.gen_sample Scenario.E0 (Scenario.run 2) = Ok s1) /\
  GB.iterate Scenario.E0 4 (GB.init Scenario.E0 Scenario.c0) <> Raise FullMemory.
Proof.
  destruct (@set_up_accu_capacity Scenario.E0 Scenario.c0 I)
    as (_ & Hn & _ & Hi & Hrun & Hnf & _).
  split; [ rewrite Hi; exact Hn | ].
  split; [ | apply Hnf ].
  destruct (Hrun 2 (Scenario.run 2)) as (_ & _ & H).
  - vm_compute. reflexivity.
  - apply H. simpl. lia.
Defined.

(** ** Arrays, entry by entry *)

Lemma vadd_inv (a b c : Vec) :
  vadd a b = Ok c -> length a = length b /\ c = zip_with Qcplus a b.
Proof.
  unfold vadd. destruct (length a =? length b) eqn:Hl; [ | discriminate ].
  intros H. inversion H. apply Nat.eqb_eq in Hl. split; [ exact Hl | reflexivity ].
Qed.

Lemma vadd_same_length (a b : Vec) :
  length a = length b -> vadd a b = Ok (zip_with Qcplus a b).
Proof.
  intros H. unfold vadd. apply Nat.eqb_eq in H. rewrite H. reflexivity.
Qed.

Lemma length_zip_with (f : Qc -> Qc -> Qc) (a b : Vec) :
  length a = length b -> length (zip_with f a b) = length a.
Proof.
  revert b. induction a as [ | x a IH]; intros [ | y b] H; simpl in *;
    try reflexivity; try discriminate H.
  rewrite (IH b); [ reflexivity | lia ].
Qed.

Lemma nth_zip_plus (a b : Vec) (i : nat) :
  length a = length b ->
  nth i (zip_with Qcplus a b) 0%Qc = (nth i a 0 + nth i b 0)%Qc.
Proof.
  revert b i. induction a as [ | x a IH]; intros [ | y b] i H; simpl in *;
    try discriminate H.
  - destruct i; ring.
  - destruct i as [ | i]; [ reflexivity | ]. apply IH. lia.
Qed.

Lemma nth_map_zero (f : Qc -> Qc) (a : Vec) (i : nat) :
  f 0%Qc = 0%Qc -> nth i (map f a) 0%Qc = f (nth i a 0%Qc).
Proof.
  intros H. rewrite <- H at 1. apply map_nth.
Qed.

Lemma nth_vscale (c : Qc) (a : Vec) (i : nat) :
  nth i (vscale c a) 0%Qc = (c * nth i a 0)%Qc.
Proof.
  unfold vscale. apply (nth_map_zero (fun x => c * x)%Qc). ring.
Qed.

Lemma nth_zeros (n i : nat) : nth i (zeros n) 0%Qc = 0%Qc.
Proof.
  unfold zeros. revert i. induction n as [ | n IH]; intros [ | i]; simpl; auto.
Qed.


Lemma setitem_inv (i : nat) (x : Qc) (a a' : Vec) :
  setitem i x a = Ok a' ->
  length a' = length a /\
  forall j : nat, nth j a' 0%Qc = if j =? i then x else nth j a 0%Qc.
Proof.
  revert i a'. induction a as [ | y a IH]; intros i a' H.
  - destruct i; discriminate H.
  - destruct i as [ | i]; simpl in H.
    + inversion H. subst. split; [ reflexivity | ].
      intros [ | j]; reflexivity.
    + destruct (setitem i x a) as [a'' | e] eqn:Hi; simpl in H; [ | discriminate H ].
      inversion H. subst. destruct (IH i a'' Hi) as [Hl Hn].
      split; [ simpl; rewrite Hl; reflexivity | ].
      intros [ | j]; [ reflexivity | ]. simpl. apply Hn.
Qed.

Lemma setitems_inv (idx : list nat) (a a' : Vec) :
  setitems idx 0%Qc a = Ok a' ->
  length a' = length a /\
  forall j : nat,
    nth j a' 0%Qc = if existsb (Nat.eqb j) idx then 0%Qc else nth j a 0%Qc.
Proof.
  revert a a'. induction idx as [ | i idx IH]; intros a a' H; simpl in H.
  - inversion H. subst. split; reflexivity.
  - destruct (setitem i 0%Qc a) as [a1 | e] eqn:Hi; simpl in H; [ | discriminate H ].
    destruct (setitem_inv _ _ _ Hi) as [Hl1 Hn1].
    destruct (IH a1 a' H) as [Hl Hn].
    split; [ rewrite Hl, Hl1; reflexivity | ].
    intros j. rewrite Hn, Hn1. simpl.
    destruct (j =? i); destruct (existsb (Nat.eqb j) idx); reflexivity.
Qed.

Lemma reshape_inv (n : nat) (a a' : Vec) :
  reshape n a = Ok a' -> a' = a /\ length a = n.
Proof.
  unfold reshape. destruct (length a =? n) eqn:Hl; [ | discriminate ].
  intros H. inversion H. subst a'. apply Nat.eqb_eq in Hl.
  split; [ reflexivity | exact Hl ].
Qed.

Lemma existsb_eqb_In (i : nat) (idx : list nat) :
  In i idx -> existsb (Nat.eqb i) idx = true.
Proof.
  intros H. apply existsb_exists. exists i. split; [ exact H | apply Nat.eqb_refl ].
Qed.

(** the momentum that [new_v] returns, entry by entry *)
Lemma new_v_inv (E : Collab) (eta t mom : Qc) (idx : list nat)
      (v ds dk v' : Vec) :
  GB.new_v E eta t mom idx v ds dk = Ok v' ->
  length ds = length dk /\
  length ds = proba_param_shape E /\
  length v = proba_param_shape E /\
  length v' = proba_param_shape E /\
  forall i : nat,
    nth i v' 0%Qc =
    ((if existsb (Nat.eqb i) idx
      then 0
      else - eta * (nth i ds 0 + t * nth i dk 0)) + nth i v 0 * mom)%Qc.
Proof.
  unfold GB.new_v. intros H.
  apply bind_Ok_inv in H. destruct H as (g & Hg & H).
  apply bind_Ok_inv in H. destruct H as (f & Hf & H).
  apply bind_Ok_inv in H. destruct H as (w & Hw & H).
  apply vadd_inv in Hg. destruct Hg as [Hlg ->].
  unfold vscale in Hlg at 1. rewrite length_map in Hlg.
  apply setitems_inv in Hf. destruct Hf as [Hlf Hnf].
  apply reshape_inv in Hw. destruct Hw as [-> Hlw].
  apply vadd_inv in H. destruct H as [Hlv ->].
  rewrite length_map in Hlv.
  assert (Hlz : length (zip_with Qcplus ds (vscale t dk)) = length ds).
  { apply length_zip_with. unfold vscale. rewrite length_map. exact Hlg. }
  unfold vscale in Hlf at 1. rewrite length_map, Hlz in Hlf.
  repeat split; try congruence.
  - rewrite length_zip_with; [ congruence | rewrite length_map; exact Hlv ].
  - intros i. rewrite nth_zip_plus; [ | rewrite length_map; exact Hlv ].
    rewrite Hnf, nth_vscale, nth_zip_plus, nth_vscale;
      [ | unfold vscale; rewrite length_map; exact Hlg ].
    rewrite (nth_map_zero (fun x => x * mom)%Qc); [ reflexivity | ring ].
Qed.

(** ** Step size of the two engines *)


Lemma GD_step_same_length (eta t : Qc) (ds dk : Vec) :
  length ds = length dk ->
  GD.step eta t ds dk = Ok (vscale (- eta) (zip_with Qcplus ds (vscale t dk))).
Proof.
  intros H. unfold GD.step. rewrite vadd_same_length; [ reflexivity | ].
  unfold vscale. rewrite length_map. exact H.
Qed.



(** ** Frozen entries *)

Lemma frozen_inv_init (E : Collab) (c : Config) : frozen_inv (GB.init E c).
Proof.
  unfold frozen_inv, GB.init. destruct (GB.set_up_accu _ _). simpl.
  intros i _. split; [ apply nth_zeros | ]. split; [ reflexivity | ].
  intros r [].
Qed.

Lemma frozen_inv_update (E : Collab) (s s' : GB.Solver) :
  frozen_inv s -> GB.update E s = Ok s' -> frozen_inv s'.
Proof.
  unfold frozen_inv. intros Hinv H i Hi.
  update_split H; subst; simpl in *; destruct (Hinv i Hi) as (Hv0 & Hp0 & Hh0).
  - split; [ apply nth_zeros | ]. split; [ reflexivity | ]. intros r0 [].
  - split; [ apply nth_zeros | ].
    assert (Hsub : forall r1, In r1 (h0 ++ [r0]) ->
                   nth i (proba_par r1) 0%Qc =
                   nth i (GB.ini_post_param (GB.attrs s)) 0%Qc).
    { intros r1 Hr1. apply Hh0. rewrite Hh. apply in_or_app. left. exact Hr1. }
    split; [ | exact Hsub ].
    apply Hsub. apply in_or_app. right. left. reflexivity.
  - apply new_v_inv in Hv. destruct Hv as (_ & _ & _ & Hlv' & Hnv).
    apply vadd_inv in Hp. destruct Hp as [Hlp ->].
    assert (Hvi : nth i v' 0%Qc = 0%Qc).
    { rewrite Hnv, (existsb_eqb_In _ _ Hi), Hv0. ring. }
    split; [ exact Hvi | ].
    split; [ rewrite nth_zip_plus, Hvi, Hp0; [ ring | exact Hlp ] | ].
    intros r1 Hr1. apply in_app_or in Hr1. destruct Hr1 as [Hr1 | [<- | []]].
    + apply Hh0. exact Hr1.
    + simpl. exact Hp0.
Qed.

(** the sibling path: along a run of the robust engine the frozen entries
    of the parameter keep their initial value *)
Lemma GB_frozen_entries_fixed (E : Collab) (c : Config) (n : nat) (s : GB.Solver)
      (i : nat) :
  GB.iterate E n (GB.init E c) = Ok s ->
  In i (GD.index_no_train (GD.attrs (GB.base (GB.init E c)))) ->
  nth i (GD._post_param (GB.base s)) 0%Qc = nth i (c_post_param c) 0%Qc.
Proof.
  intros Hrun Hi.
  assert (Hinv : frozen_inv s).
  { revert Hrun. apply (iterate_invariant E frozen_inv);
      [ apply frozen_inv_update | apply frozen_inv_init ]. }
  destruct (count_iterate E n _ Hrun) as (_ & Hat & Hgat).
  destruct (init_fields E c) as (_ & _ & _ & _ & Hini & _).
  rewrite <- Hgat in Hi. destruct (Hinv i Hi) as (_ & Hp & _).
  rewrite Hp, Hat, Hini. reflexivity.
Qed.

(** ** The vanilla engine *)

Lemma tensordot_entries (shape : nat) (f : Sample -> Qc) (der : Sample -> Vec)
      (l : list Sample) :
  (forall x : Sample, length (der x) = shape) ->
  exists td : Vec,
    tensordot shape (map f l) (map der l) = Ok td /\
    length td = shape /\
    forall j : nat,
      nth j td 0%Qc = sum_Qc (map (fun x => f x * nth j (der x) 0)%Qc l).
Proof.
  intros Hder. induction l as [ | x l IH]; simpl.
  - exists (zeros shape). split; [ reflexivity | ].
    split; [ apply repeat_length | ]. intros j. apply nth_zeros.
  - destruct IH as (td & Htd & Hl & Hn). rewrite Htd. simpl.
    assert (Hlen : length (vscale (f x) (der x)) = length td).
    { unfold vscale. rewrite length_map, Hder, Hl. reflexivity. }
    rewrite (vadd_same_length _ _ Hlen).
    eexists. split; [ reflexivity | ].
    split; [ rewrite (length_zip_with _ _ _ Hlen), Hlen; exact Hl | ].
    intros j. rewrite (nth_zip_plus _ _ j Hlen), nth_vscale, Hn. reflexivity.
Qed.

(** the gradient that [update] computes is the one the specification words *)
Lemma grad_expct_spec (E : Collab) (param : Vec) (n_t : nat) (samples : list Sample) :
  length samples = n_t ->
  (forall x : Sample, length (log_dens_der E param x) = proba_param_shape E) ->
  exists ge : Vec,
    GD.grad_expct E n_t param samples (par_eval E samples) = Ok ge /\
    length ge = proba_param_shape E /\
    forall j : nat, nth j ge 0%Qc = grad_loss_spec E param samples j.
Proof.
  intros Hlen Hder. unfold GD.grad_expct, par_eval. rewrite map_map.
  destruct (tensordot_entries
              (fun x => fun_ E x - np_mean (map (fun_ E) samples))%Qc
              (log_dens_der E param) samples Hder) as (td & Htd & Hl & Hn).
  rewrite Htd. simpl. eexists. split; [ reflexivity | ].
  split; [ rewrite length_map; exact Hl | ].
  intros j.
  rewrite (nth_map_zero (fun x => x / Qc_of_nat n_t)%Qc);
    [ | unfold Qcdiv; ring ].
  rewrite Hn. unfold grad_loss_spec, np_mean. rewrite length_map, Hlen.
  unfold Qcdiv. ring.
Qed.

(** C5. A call to [update] of the vanilla engine, with a positive
    scheduled batch size [n_t], room in the accumulator and collaborators
    that return arrays of the shape of the parameter, returns. The batch
    it draws has
    [n_t] points; the gradient it computes is
    [(1/n_t) * sum_i (value_i - mean_loss) * d log_density(sample_i)]; the
    log gains one record, with the parameter before the update, the score
    [mean_loss + temperature * kl], the KL and the mean loss; the new
    parameter is [param - eta * (grad_loss + temperature * grad_kl)],
    committed whatever the score, and the counter has moved by one. *)
Theorem GD_update_step (E : Collab) (s : GD.Solver) (n_t : nat) :
  let param := GD._post_param s in
  let samples := draw E (GD._post s) (GD.count s) n_t in
  let oracle :=
    grad_kl E (GD.prior_param (GD.attrs s)) param (GD.n_grad_kl (GD.attrs s))
            (GD.count s) in
  let mean_loss := np_mean (par_eval E samples) in
  let T := GD.temperature (GD.attrs s) in
  getitem (GD.per_step (GD.attrs s)) (GD.count s) = Ok n_t ->
  0 < n_t ->
  AccuSampleVal.n_filled (GD.accu s) + n_t <= n_tot (GD.accu s) ->
  length param = proba_param_shape E ->
  (forall x : Sample, length (log_dens_der E param x) = proba_param_shape E) ->
  length (fst oracle) = proba_param_shape E ->
  exists (s' : GD.Solver) (ge : Vec),
    GD.update E s = Ok s' /\
    length samples = n_t /\
    GD.grad_expct E n_t param samples (par_eval E samples) = Ok ge /\
    (forall j : nat, nth j ge 0%Qc = grad_loss_spec E param samples j) /\
    GD.hist_log s' =
    GD.hist_log s ++
    [{| proba_par := param;
        score := xadd (Fin mean_loss) (xmul (Fin T) (snd oracle));
        KL := snd oracle;
        mean := Fin mean_loss |}] /\
    length (GD._post_param s') = proba_param_shape E /\
    (forall j : nat,
        nth j (GD._post_param s') 0%Qc =
        (nth j param 0
         - GD.eta s * (grad_loss_spec E param samples j + T * nth j (fst oracle) 0))%Qc) /\
    GD._post s' = GD._post_param s' /\
    GD.count s' = GD.count s + 1 /\
    GD.eta s' = GD.eta s.
Proof.
  intros param samples oracle mean_loss T Hn Hpos Hcap Hlp Hder Hlk.
  assert (Hls : length samples = n_t) by apply draw_length.
  destruct (grad_expct_spec E param samples Hls Hder) as (ge & Hge & Hlge & Hnge).
  destruct (@add_gen_fits
              {| g_sample := samples; g_ldens := None; g_vals := par_eval E samples |}
              (GD.accu s)) as [a' Ha'];
    [ simpl; rewrite Hls; exact Hcap | ].
  assert (Hstep : GD.step (GD.eta s) T ge (fst oracle) =
                  Ok (vscale (- GD.eta s) (zip_with Qcplus ge (vscale T (fst oracle))))).
  { apply GD_step_same_length. congruence. }
  assert (Hlstp : length (vscale (- GD.eta s)
                           (zip_with Qcplus ge (vscale T (fst oracle)))) =
                  proba_param_shape E).
  { unfold vscale at 1. rewrite length_map, length_zip_with; [ exact Hlge | ].
    unfold vscale. rewrite length_map. congruence. }
  assert (Hadd : vadd param (vscale (- GD.eta s)
                                    (zip_with Qcplus ge (vscale T (fst oracle)))) =
                 Ok (zip_with Qcplus param
                              (vscale (- GD.eta s)
                                      (zip_with Qcplus ge (vscale T (fst oracle)))))).
  { apply vadd_same_length. congruence. }
  set (new_param := zip_with Qcplus param
                      (vscale (- GD.eta s)
                              (zip_with Qcplus ge (vscale T (fst oracle))))) in *.
  set (rec := {| proba_par := param;
                 score := xadd (Fin mean_loss) (xmul (Fin T) (snd oracle));
                 KL := snd oracle;
                 mean := Fin mean_loss |}).
  set (s2 := GD.set_count (GD.count s + 1)
               (GD.set_post_param new_param
                  (GD.set_converged
                     (check_convergence E (GD.xtol (GD.attrs s)) (GD.kltol (GD.attrs s))
                                        (GD.converged s) param new_param)
                     (GD.set_hist_log (GD.hist_log s ++ [rec])
                        (GD.set_accu a' s))))).
  destruct (GD_msg_end_step_prints s2) as [m Hm].
  exists (GD.print m s2), ge.
  split.
  { unfold GD.update. rewrite Hn. simpl.
    unfold AccuSampleVal.add. fold samples. rewrite Ha'. simpl.
    fold param. rewrite Hge. simpl.
    fold oracle. destruct oracle as [gkl kl] eqn:Hor. simpl in *.
    fold T. rewrite Hstep. simpl. rewrite Hadd. simpl. exact Hm. }
  split; [ exact Hls | ]. split; [ exact Hge | ]. split; [ exact Hnge | ].
  split; [ reflexivity | ].
  split; [ simpl; unfold new_param; rewrite length_zip_with; congruence | ].
  split; [ | repeat split ].
  intros j. simpl. unfold new_param.
  rewrite nth_zip_plus by congruence.
  rewrite nth_vscale, nth_zip_plus, nth_vscale, Hnge;
    [ ring | unfold vscale; rewrite length_map; congruence ].
Qed.

Lemma GD_update_step_witness :
  exists (s' : GD.Solver) (ge : Vec),
    GD.update Scenario.E0 (GD.init Scenario.c0) = Ok s' /\
    (forall j : nat,
        nth j ge 0%Qc =
        grad_loss_spec Scenario.E0 [0; 0]%Qc
                       (draw Scenario.E0 [0; 0]%Qc 0 2) j) /\
    length (GD.hist_log s') = 1 /\
    GD.count s' = 1.
Proof.
  destruct (@GD_update_step Scenario.E0 (GD.init Scenario.c0) 2)
    as (s' & ge & H1 & _ & _ & H2 & H3 & _ & _ & _ & H4 & _).
  - reflexivity.
  - lia.
  - simpl. lia.
  - reflexivity.
  - intros x. reflexivity.
  - reflexivity.
  - exists s', ge. split; [ exact H1 | ]. split; [ exact H2 | ].
    split; [ rewrite H3; reflexivity | exact H4 ].
Defined.

(** C3. The vanilla engine computes the set of frozen entries and never
    reads it: with entry 0 frozen, one call to its [update] moves entry 0
    of the parameter from 0 to -3/40. (The robust engine keeps the frozen
    entries: [GB_frozen_entries_fixed].) *)
Theorem GD_update_moves_frozen_entry :
  In 0 (GD.index_no_train (GD.attrs (GD.init Scenario.c0))) /\
  nth 0 (c_post_param Scenario.c0) 0%Qc = 0%Qc /\
  GD.update Scenario.E0 (GD.init Scenario.c0) = Ok (Scenario.gd_run 1) /\
  nth 0 (GD._post_param (Scenario.gd_run 1)) 0%Qc = Scenario.q (-3) 40 /\
  nth 0 (GD._post_param (Scenario.gd_run 1)) 0%Qc
  <> nth 0 (c_post_param Scenario.c0) 0%Qc.
Proof.
  split; [ left; reflexivity | ].
  split; [ reflexivity | ].
  split; [ vm_compute; reflexivity | ].
  split; [ apply Qc_is_canon; vm_compute; reflexivity | ].
  intros H. apply (f_equal this) in H. vm_compute in H. discriminate H.
Qed.

(** ** The final result *)

Lemma VI_scores_last_snoc (h : HistVILog.t) (r : HistRecord) :
  HistVILog.VI_scores (Some 1) (h ++ [r]) = [score r].
Proof.
  unfold HistVILog.VI_scores, HistVILog.last_n.
  rewrite map_app, length_app. simpl.
  replace (length (map score h) + 1 - 1) with (length (map score h)) by lia.
  rewrite skipn_app, skipn_all, Nat.sub_diag. reflexivity.
Qed.

Lemma process_result_nonempty (s : GB.Solver) (h : HistVILog.t) (r : HistRecord) :
  GD.hist_log (GB.base s) = h ++ [r] ->
  GB.process_result s =
  Ok {| GB.opti_param := GD._post_param (GB.base s);
        GB.converged := GD.converged (GB.base s);
        GB.opti_score := score r;
        GB.hist_param := map proba_par (h ++ [r]);
        GB.hist_score := map score (h ++ [r]);
        GB.end_param := GD._post_param (GB.base s);
        GB.log_vi := h ++ [r];
        GB.bin_log_vi := GB.bin_log s;
        GB.sample_val := GD.accu (GB.base s) |}.
Proof.
  intros Hh. unfold GB.process_result. rewrite Hh, VI_scores_last_snoc. reflexivity.
Qed.

Lemma process_result_empty (s : GB.Solver) :
  GD.hist_log (GB.base s) = [] -> GB.process_result s = Raise IndexError.
Proof.
  intros Hh. unfold GB.process_result. rewrite Hh. reflexivity.
Qed.

(** C6. A run of two steps whose second step is rejected ends with an empty
    primary log; [process_result] then raises [IndexError], and so it does
    on a solver that has made no step. ([msg_end_step] does recover:
    [msg_end_step_prints]; in a run, the branch of a bad step finds a
    record to remove: [log_inv_iterate], [bad_step_total].) *)
Theorem process_result_underflow :
  GB.iterate Scenario.E0 2 (GB.init Scenario.E0 Scenario.c0) = Ok (Scenario.run 2) /\
  GB.classify Scenario.E0 (Scenario.run 1) = Ok true /\
  GD.hist_log (GB.base (Scenario.run 2)) = [] /\
  GB.process_result (Scenario.run 2) = Raise IndexError /\
  GB.process_result (GB.init Scenario.E0 Scenario.c0) = Raise IndexError.
Proof.
  split; [ vm_compute; reflexivity | ].
  split; [ vm_compute; reflexivity | ].
  split; [ vm_compute; reflexivity | ].
  split; apply process_result_empty; vm_compute; reflexivity.
Qed.

(** C7 as worded does not hold: no projection of the final result
    returns the stable accumulator, since two solvers that differ in it
    only assemble the same result. *)
Lemma result_lacks_stable_accu : ~ result_carries_stable_accu.
Proof.
  intros [proj Hproj].
  set (s1 := Scenario.run 1).
  set (s2 := GB.set_stable_accu (AccuSampleVal.create 0) s1).
  destruct (GB.process_result s1) as [r | e] eqn:Hr; [ | vm_compute in Hr; discriminate Hr ].
  assert (H1 : proj r = GB.stable_accu s1) by (apply Hproj; exact Hr).
  assert (H2 : proj r = GB.stable_accu s2) by (apply Hproj; exact Hr).
  rewrite H1 in H2. apply (f_equal n_tot) in H2. vm_compute in H2. discriminate H2.
Qed.

(** C7, amended. When the primary log holds a record, [process_result]
    returns the record made of: the current parameter as optimized and as
    final parameter, the converged flag, the score of the most recent
    record of the primary log, the parameter and score histories of that
    log, the primary log, the bin log and the density-tracking accumulator;
    the stable accumulator has no part in it. *)
Theorem process_result_fields (s : GB.Solver) (h : HistVILog.t) (r : HistRecord) :
  GD.hist_log (GB.base s) = h ++ [r] ->
  exists res : GB.OptimResultVIGB,
    GB.process_result s = Ok res /\
    GB.opti_param res = GD._post_param (GB.base s) /\
    GB.converged res = GD.converged (GB.base s) /\
    GB.opti_score res = score r /\
    GB.hist_param res = map proba_par (GD.hist_log (GB.base s)) /\
    GB.hist_score res = map score (GD.hist_log (GB.base s)) /\
    GB.end_param res = GD._post_param (GB.base s) /\
    GB.log_vi res = GD.hist_log (GB.base s) /\
    GB.bin_log_vi res = GB.bin_log s /\
    GB.sample_val res = GD.accu (GB.base s) /\
    forall a : Accu, GB.process_result (GB.set_stable_accu a s) = Ok res.
Proof.
  intros Hh. eexists. split; [ apply (process_result_nonempty s h r Hh) | ].
  simpl. rewrite Hh. repeat split.
  intros a. apply (process_result_nonempty (GB.set_stable_accu a s) h r). exact Hh.
Qed.

Lemma process_result_fields_witness :
  exists res : GB.OptimResultVIGB,
    GB.process_result (Scenario.run 1) = Ok res /\
    GB.sample_val res = GD.accu (GB.base (Scenario.run 1)) /\
    GB.process_result
      (GB.set_stable_accu (AccuSampleVal.create 0) (Scenario.run 1)) = Ok res.
Proof.
  destruct (@process_result_fields (Scenario.run 1) [] Scenario.r0)
    as (res & H1 & _ & _ & _ & _ & _ & _ & _ & _ & H2 & H3).
  - vm_compute. reflexivity.
  - exists res. split; [ exact H1 | ]. split; [ exact H2 | apply H3 ].
Defined.

(** * Further properties of the two engines *)

(** ** The index sets of the constructor *)

Lemma range_difference_In (n : nat) (idx : list nat) (i : nat) :
  In i (range_difference n idx) <-> i < n /\ ~ In i idx.
Proof.
  unfold range_difference. rewrite filter_In, in_seq, negb_true_iff.
  split.
  - intros [[_ Hlt] Hex]. split; [ simpl in Hlt; exact Hlt | ].
    intros Hin. rewrite (existsb_eqb_In _ _ Hin) in Hex. discriminate Hex.
  - intros [Hlt Hnin]. split; [ simpl; lia | ].
    destruct (existsb (Nat.eqb i) idx) eqn:Hex; [ | reflexivity ].
    apply existsb_exists in Hex. destruct Hex as (j & Hj & Heq).
    apply Nat.eqb_eq in Heq. subst j. contradiction.
Qed.

(** X1. The constructor splits the index range of the parameter: without
    [index_train] every index is trainable and none is frozen; with it, the
    frozen indices are, without repetition, exactly the indices of the range
    that [index_train] does not list, and the list itself is kept as given.
    The robust engine inherits the same sets. *)
Theorem index_sets_partition (E : Collab) (c : Config) :
  let a := GD.attrs (GD.init c) in
  let n_param := length (c_prior_param c) in
  (c_index_train c = None ->
   GD.index_no_train a = [] /\ GD.index_train a = seq 0 n_param) /\
  (forall idx : list nat,
      c_index_train c = Some idx ->
      GD.index_train a = idx /\
      NoDup (GD.index_no_train a) /\
      forall i : nat,
        In i (GD.index_no_train a) <-> i < n_param /\ ~ In i idx) /\
  GD.index_no_train (GD.attrs (GB.base (GB.init E c))) = GD.index_no_train a /\
  GD.index_train (GD.attrs (GB.base (GB.init E c))) = GD.index_train a.
Proof.
  intros a n_param. subst a n_param. unfold GD.init, GB.init, GB.set_up_accu. simpl.
  split; [ intros ->; split; reflexivity | ].
  split; [ | split; reflexivity ].
  intros idx ->. split; [ reflexivity | ].
  split; [ apply NoDup_filter, seq_NoDup | ].
  intros i. apply range_difference_In.
Qed.

Lemma index_sets_partition_witness :
  GD.index_train (GD.attrs (GD.init Scenario.c0)) = [1] /\
  (In 0 (GD.index_no_train (GD.attrs (GD.init Scenario.c0))) <->
   0 < 2 /\ ~ In 0 [1]).
Proof.
  destruct (index_sets_partition Scenario.E0 Scenario.c0) as (_ & H & _).
  destruct (H [1] eq_refl) as (H1 & _ & H2).
  split; [ exact H1 | exact (H2 0) ].
Defined.

(** ** Bookkeeping of a run of the robust engine *)

(** what one call to [update] does to the two logs and to the warnings *)
Lemma update_logs (E : Collab) (s s' : GB.Solver) :
  GB.update E s = Ok s' ->
  (exists r : HistRecord,
      GD.hist_log (GB.base s') = GD.hist_log (GB.base s) ++ [r] /\
      GB.bin_log s' = GB.bin_log s /\
      GB.warnings s' = GB.warnings s /\
      GB.prev_score s' = score r /\
      GD.eta (GB.base s') = GD.eta (GB.base s)) \/
  (exists (r : HistRecord) (w : ProbBadGrad),
      GD.hist_log (GB.base s) = GD.hist_log (GB.base s') ++ [r] /\
      GB.bin_log s' = GB.bin_log s ++ [r] /\
      GB.warnings s' = GB.warnings s ++ [w] /\
      GB.prev_score s' =
        match rev (GD.hist_log (GB.base s')) with
        | [] => PInf
        | r0 :: _ => score r0
        end /\
      GD.eta (GB.base s') = (GD.eta (GB.base s) * GB.corr_eta (GB.attrs s))%Qc).
Proof.
  intros H. apply update_cases in H.
  destruct H as (s1 & s2 & Hg & Hf & Hc).
  destruct (gen_sample_frame E s Hg)
    as (Hps & Hat & Hw & _ & Hbin & Hhist & Heta & _).
  apply finish_frame in Hf.
  destruct Hf as (_ & Fps & Fbin & _ & _ & Fw & Feta & _ & _ & _ & Fhist & _).
  rewrite Fps, Fbin, Fw, Feta, Fhist.
  destruct Hc as [[_ Hs] | [_ Hs]].
  - right. apply bad_step_fields in Hs.
    destruct Hs as (h & r & Bh & _ & Beta & _ & Bhist & Bbin & _ & _ & Bw & _ & Bres).
    simpl in Bh, Beta, Bbin, Bw.
    exists r, (rejection E s1).
    rewrite Bhist, Bbin, Beta, Bw, <- Hhist, <- Hbin, <- Hw, <- Heta, <- Hat.
    split; [ exact Bh | ]. split; [ reflexivity | ]. split; [ reflexivity | ].
    split; [ | reflexivity ].
    destruct (rev h); destruct Bres as [_ Hp]; exact Hp.
  - left. apply good_step_inv in Hs. destruct Hs as (v' & p' & _ & _ & ->).
    exists (accepted_record E s1). simpl.
    rewrite Hhist, Hbin, Hw, Heta. repeat split.
Qed.

(** X2. After [n] calls of a run of the robust engine: the counter is [n];
    every step was either logged or rejected, a rejected step having taken
    one record out of the primary log and put it into the bin log, so the
    length of the primary log plus twice that of the bin log is [n]; there
    is one warning per record of the bin log; and the learning rate is
    [eta * (1 - momentum)] times [corr_eta] to the number of rejected
    steps. *)
Theorem GB_run_accounting (E : Collab) (c : Config) (n : nat) (s : GB.Solver) :
  GB.iterate E n (GB.init E c) = Ok s ->
  GD.count (GB.base s) = n /\
  length (GD.hist_log (GB.base s)) + 2 * length (GB.bin_log s) = n /\
  length (GB.warnings s) = length (GB.bin_log s) /\
  GD.eta (GB.base s) =
  (c_eta c * (1 - c_momentum c) * c_corr_eta c ^ length (GB.bin_log s))%Qc.
Proof.
  intros Hrun.
  destruct (count_iterate E n _ Hrun) as (Hcnt & _ & _).
  destruct (init_fields E c) as (_ & _ & Hc0 & _ & _ & _ & _ & _ & He0).
  rewrite Hc0 in Hcnt. simpl in Hcnt.
  split; [ exact Hcnt | ].
  assert (Hinv : length (GD.hist_log (GB.base s)) + 2 * length (GB.bin_log s)
                 = GD.count (GB.base s) /\
                 length (GB.warnings s) = length (GB.bin_log s)).
  { revert Hrun.
    apply (iterate_invariant E
             (fun s => length (GD.hist_log (GB.base s)) + 2 * length (GB.bin_log s)
                       = GD.count (GB.base s) /\
                       length (GB.warnings s) = length (GB.bin_log s))).
    - intros s0 s1 [Hl Hw] Hupd.
      rewrite (update_count E _ Hupd).
      apply update_logs in Hupd.
      destruct Hupd as [(r & Hh & Hb & Hws & _) | (r & w & Hh & Hb & Hws & _)].
      + rewrite Hh, Hb, Hws, length_app. simpl. lia.
      + rewrite Hh, length_app in Hl. simpl in Hl.
        rewrite Hb, Hws, !length_app. simpl. lia.
    - unfold GB.init, GB.set_up_accu. simpl. split; reflexivity. }
  destruct Hinv as [Hl Hw]. rewrite Hcnt in Hl.
  split; [ exact Hl | ]. split; [ exact Hw | ].
  apply eta_iterate in Hrun. destruct Hrun as [_ Heta].
  rewrite Heta, He0. unfold GB.init, GB.set_up_accu. simpl.
  rewrite Nat.sub_0_r. reflexivity.
Qed.

Lemma GB_run_accounting_witness :
  length (GD.hist_log (GB.base (Scenario.run 3))) +
  2 * length (GB.bin_log (Scenario.run 3)) = 3 /\
  length (GB.warnings (Scenario.run 3)) = length (GB.bin_log (Scenario.run 3)).
Proof.
  destruct (@GB_run_accounting Scenario.E0 Scenario.c0 3 (Scenario.run 3))
    as (_ & H1 & H2 & _).
  - vm_compute. reflexivity.
  - split; assumption.
Defined.

Lemma update_post_cached (E : Collab) (s s' : GB.Solver) :
  GB.update E s = Ok s' -> GD._post (GB.base s') = GD._post_param (GB.base s').
Proof.
  intros H. apply update_cases in H.
  destruct H as (s1 & s2 & _ & Hf & Hc).
  apply finish_frame in Hf.
  destruct Hf as (_ & _ & _ & _ & _ & _ & _ & Fpar & Fpost & _).
  rewrite Fpar, Fpost.
  destruct Hc as [[_ Hs] | [_ Hs]].
  - apply bad_step_fields in Hs.
    destruct Hs as (h & r & _ & _ & _ & _ & _ & _ & Bpost & _). exact Bpost.
  - apply good_step_inv in Hs. destruct Hs as (v' & p' & _ & _ & ->). reflexivity.
Qed.

(** X3. Along a run of the robust engine the previous score is the score of
    the most recent record of the primary log, and plus infinity when that
    log is empty; the cached distribution is the one of the current
    parameter; hence the optimal score of a final result is the previous
    score that the bad-step test would use next. *)
Theorem prev_score_tracks_log (E : Collab) (c : Config) (n : nat) (s : GB.Solver) :
  GB.iterate E n (GB.init E c) = Ok s ->
  GB.prev_score s =
    match rev (GD.hist_log (GB.base s)) with
    | [] => PInf
    | r :: _ => score r
    end /\
  GD._post (GB.base s) = GD._post_param (GB.base s) /\
  forall res : GB.OptimResultVIGB,
    GB.process_result s = Ok res -> GB.opti_score res = GB.prev_score s.
Proof.
  intros Hrun.
  assert (Hinv : GB.prev_score s =
                 match rev (GD.hist_log (GB.base s)) with
                 | [] => PInf
                 | r :: _ => score r
                 end /\
                 GD._post (GB.base s) = GD._post_param (GB.base s)).
  { revert Hrun.
    apply (iterate_invariant E
             (fun s => GB.prev_score s =
                       match rev (GD.hist_log (GB.base s)) with
                       | [] => PInf
                       | r :: _ => score r
                       end /\
                       GD._post (GB.base s) = GD._post_param (GB.base s))).
    - intros s0 s1 _ Hupd. split; [ | exact (update_post_cached E _ Hupd) ].
      apply update_logs in Hupd.
      destruct Hupd as [(r & Hh & _ & _ & Hp & _) | (r & w & _ & _ & _ & Hp & _)].
      + rewrite Hh, rev_app_distr. exact Hp.
      + exact Hp.
    - unfold GB.init, GB.set_up_accu. simpl. split; reflexivity. }
  destruct Hinv as [Hp Hpost].
  split; [ exact Hp | ]. split; [ exact Hpost | ].
  intros res Hres.
  destruct (snoc_cases (GD.hist_log (GB.base s))) as [Hnil | (h & r & Hh)].
  - rewrite (process_result_empty s Hnil) in Hres. discriminate Hres.
  - rewrite (process_result_nonempty s h r Hh) in Hres. inversion Hres. simpl.
    rewrite Hp, Hh, rev_app_distr. reflexivity.
Qed.

Lemma prev_score_tracks_log_witness :
  GB.prev_score (Scenario.run 3) =
    match rev (GD.hist_log (GB.base (Scenario.run 3))) with
    | [] => PInf
    | r :: _ => score r
    end /\
  GD._post (GB.base (Scenario.run 3)) = GD._post_param (GB.base (Scenario.run 3)).
Proof.
  destruct (@prev_score_tracks_log Scenario.E0 Scenario.c0 3 (Scenario.run 3))
    as (H1 & H2 & _).
  - vm_compute. reflexivity.
  - split; [ exact H1 | exact H2 ].
Defined.

(** what one call to [update] does to the primary log and to the
    generations of the density-tracking accumulator *)
Lemma update_log_and_gens (E : Collab) (s s' : GB.Solver) :
  GB.update E s = Ok s' ->
  (exists (r : HistRecord) (g : Generation),
      GD.hist_log (GB.base s') = GD.hist_log (GB.base s) ++ [r] /\
      gens (GD.accu (GB.base s')) = gens (GD.accu (GB.base s)) ++ [g]) \/
  (exists r : HistRecord,
      GD.hist_log (GB.base s) = GD.hist_log (GB.base s') ++ [r] /\
      gens (GD.accu (GB.base s')) =
      firstn (length (gens (GD.accu (GB.base s))) - 1) (gens (GD.accu (GB.base s)))).
Proof.
  intros H. apply update_cases in H.
  destruct H as (s1 & s2 & Hg & Hf & Hc).
  destruct (gen_sample_frame E s Hg) as (_ & _ & _ & _ & _ & Hhist & _).
  apply finish_frame in Hf.
  destruct Hf as (_ & _ & _ & _ & _ & _ & _ & _ & _ & Facc & Fhist & _).
  rewrite Facc, Fhist.
  apply gen_sample_inv in Hg. destruct Hg as (k & a & st & _ & Ha & _ & Hs1).
  destruct Hc as [[_ Hs] | [_ Hs]].
  - right. apply bad_step_fields in Hs.
    destruct Hs as (h & r & Bh & _ & _ & Bacc & Bhist & _).
    simpl in Bh, Bacc. exists r. rewrite Bhist, Bacc, <- Hhist.
    split; [ exact Bh | ].
    subst s1. simpl. exact (suppr_gen_after_add _ _ Ha).
  - left. apply good_step_inv in Hs. destruct Hs as (v' & p' & _ & _ & ->).
    eexists. eexists. simpl. rewrite Hhist. split; [ reflexivity | ].
    subst s1. simpl. apply n_filled_add_gen in Ha. destruct Ha as (_ & Hga & _).
    exact Hga.
Qed.

(** X4. Along a run of the robust engine the density-tracking accumulator
    holds, beside the generations of the previous evaluations it started
    from, one generation per record of the primary log: a rejected step
    takes out one record and, with the new generation, the generation of
    that record. *)
Theorem accu_one_generation_per_record
        (E : Collab) (c : Config) (n : nat) (s : GB.Solver) :
  GB.iterate E n (GB.init E c) = Ok s ->
  length (gens (GD.accu (GB.base s))) =
  length (gens (GD.accu (GB.base (GB.init E c)))) + length (GD.hist_log (GB.base s)) /\
  length (gens (GD.accu (GB.base (GB.init E c)))) =
    match c_prev_eval c with
    | None => 0
    | Some a => length (gens a)
    end.
Proof.
  intros Hrun. split.
  - revert Hrun.
    apply (iterate_invariant E
             (fun s => length (gens (GD.accu (GB.base s))) =
                       length (gens (GD.accu (GB.base (GB.init E c)))) +
                       length (GD.hist_log (GB.base s)))).
    + intros s0 s1 Hl Hupd. apply update_log_and_gens in Hupd.
      destruct Hupd as [(r & g & Hh & Hg) | (r & Hh & Hg)].
      * rewrite Hh, Hg, !length_app, Hl. simpl. lia.
      * rewrite Hh, length_app in Hl. change (length [r]) with 1 in Hl.
        rewrite Hg, length_firstn. lia.
    + destruct (init_fields E c) as (_ & -> & _). simpl. lia.
  - unfold GB.init, GB.set_up_accu. simpl. destruct (c_prev_eval c); reflexivity.
Qed.

Lemma accu_one_generation_per_record_witness :
  length (gens (GD.accu (GB.base (Scenario.run 3)))) =
  0 + length (GD.hist_log (GB.base (Scenario.run 3))).
Proof.
  destruct (@accu_one_generation_per_record Scenario.E0 Scenario.c0 3 (Scenario.run 3))
    as (H1 & H2).
  - vm_compute. reflexivity.
  - rewrite H1, H2. reflexivity.
Defined.

(** X5. Along a run of the robust engine, on every frozen index the
    momentum is zero, and the parameter, like every parameter recorded in
    the primary log, has the value of the starting parameter. *)
Theorem GB_run_keeps_frozen_entries
        (E : Collab) (c : Config) (n : nat) (s : GB.Solver) (i : nat) :
  GB.iterate E n (GB.init E c) = Ok s ->
  In i (GD.index_no_train (GD.attrs (GB.base s))) ->
  nth i (GB.v s) 0%Qc = 0%Qc /\
  nth i (GD._post_param (GB.base s)) 0%Qc = nth i (c_post_param c) 0%Qc /\
  forall r : HistRecord,
    In r (GD.hist_log (GB.base s)) ->
    nth i (proba_par r) 0%Qc = nth i (c_post_param c) 0%Qc.
Proof.
  intros Hrun Hi.
  assert (Hinv : frozen_inv s).
  { revert Hrun. apply (iterate_invariant E frozen_inv);
      [ apply frozen_inv_update | apply frozen_inv_init ]. }
  destruct (count_iterate E n _ Hrun) as (_ & Hat & _).
  destruct (init_fields E c) as (_ & _ & _ & _ & Hini & _).
  destruct (Hinv i Hi) as (Hv & Hp & Hh).
  rewrite Hat, Hini in Hp, Hh.
  split; [ exact Hv | ]. split; [ exact Hp | exact Hh ].
Qed.

Lemma GB_run_keeps_frozen_entries_witness :
  nth 0 (GB.v (Scenario.run 3)) 0%Qc = 0%Qc /\
  nth 0 (GD._post_param (GB.base (Scenario.run 3))) 0%Qc = 0%Qc.
Proof.
  destruct (@GB_run_keeps_frozen_entries Scenario.E0 Scenario.c0 3 (Scenario.run 3) 0)
    as (H1 & H2 & _).
  - vm_compute. reflexivity.
  - vm_compute. left. reflexivity.
  - split; [ exact H1 | exact H2 ].
Defined.

(** ** The schedule *)

(** X7. The robust engine makes at most one step per entry of the
    schedule [per_step]: a run of [n] calls that returned has [n] no
    larger than the length of the schedule, and a call made once the
    counter has reached that length raises [IndexError]. *)
Theorem GB_run_within_schedule (E : Collab) (c : Config) (n : nat) (s : GB.Solver) :
  GB.iterate E n (GB.init E c) = Ok s ->
  n <= length (c_per_step c) /\
  (n = length (c_per_step c) -> GB.update E s = Raise IndexError).
Proof.
  intros Hrun.
  destruct (count_iterate E n _ Hrun) as (Hcnt & _ & Hgat).
  destruct (init_fields E c) as (_ & _ & Hc0 & Hps & _).
  rewrite Hc0 in Hcnt. simpl in Hcnt.
  assert (Hle : GD.count (GB.base s) <= length (GD.per_step (GD.attrs (GB.base s)))).
  { revert Hrun.
    apply (iterate_invariant E
             (fun s => GD.count (GB.base s)
                       <= length (GD.per_step (GD.attrs (GB.base s))))).
    - intros s0 s1 _ Hupd.
      rewrite (update_count E _ Hupd).
      destruct (update_attrs E _ Hupd) as [_ ->].
      apply update_cases in Hupd. destruct Hupd as (s2 & _ & Hg & _).
      apply gen_sample_inv in Hg. destruct Hg as (k & _ & _ & Hk & _).
      unfold getitem in Hk.
      destruct (nth_error (GD.per_step (GD.attrs (GB.base s0))) (GD.count (GB.base s0)))
        eqn:Hnth; [ | discriminate Hk ].
      assert (Hlt : GD.count (GB.base s0) < length (GD.per_step (GD.attrs (GB.base s0)))).
      { apply nth_error_Some. rewrite Hnth. discriminate. }
      lia.
    - rewrite Hc0. lia. }
  rewrite Hcnt, Hgat, Hps in Hle.
  split; [ exact Hle | ].
  intros Heq. rewrite update_unfold.
  rewrite (gen_sample_raises_past_schedule E s); [ reflexivity | ].
  rewrite Hcnt, Hgat, Hps. lia.
Qed.

Lemma GB_run_within_schedule_witness :
  GB.update Scenario.E0 (Scenario.run 3) = Raise IndexError.
Proof.
  destruct (@GB_run_within_schedule Scenario.E0 Scenario.c0 3 (Scenario.run 3))
    as (_ & H).
  - vm_compute. reflexivity.
  - apply H. reflexivity.
Defined.

(** ** The bad-step test on numbers *)

(** X8. What the comparison of [check_bad_grad] does with the numbers it
    gets, in a call to [update]. When the score, the uncertainty, the
    previous score or the refusal factor is not a number the step is
    classified as not bad. On finite numbers a step is classified as bad
    only if the margin [refuse_factor * score_UQ] is below the rise of the
    score; so a step whose score does not rise is never rejected when the
    margin is not negative. *)
Theorem bad_step_test_on_numbers (E : Collab) (s s1 : GB.Solver) :
  GB.gen_sample E s = Ok s1 ->
  (GB.score_VI E s1 = NaN \/ GB.score_UQ E s1 = NaN \/
   GB.prev_score s = NaN \/ GB.refuse_factor (GB.attrs s) = NaN ->
   GB.classify E s = Ok false) /\
  (forall p q f u : Qc,
      GB.prev_score s = Fin p ->
      GB.score_VI E s1 = Fin q ->
      GB.refuse_factor (GB.attrs s) = Fin f ->
      GB.score_UQ E s1 = Fin u ->
      (GB.classify E s = Ok true -> (f * u < q - p)%Qc) /\
      ((q <= p)%Qc -> (0 <= f * u)%Qc -> GB.classify E s = Ok false)).
Proof.
  intros Hg.
  destruct (gen_sample_frame E s Hg) as (Hps & Hat & _).
  assert (Hc : GB.classify E s =
               Ok (xgt (xsub (GB.score_VI E s1) (GB.prev_score s))
                       (xmul (GB.refuse_factor (GB.attrs s)) (GB.score_UQ E s1)))).
  { unfold GB.classify. rewrite Hg. simpl. unfold GB.is_bad.
    rewrite Hps, Hat. reflexivity. }
  rewrite Hc. split.
  - intros [H | [H | [H | H]]]; rewrite H.
    + reflexivity.
    + destruct (GB.refuse_factor (GB.attrs s));
        destruct (xsub (GB.score_VI E s1) (GB.prev_score s)); reflexivity.
    + destruct (GB.score_VI E s1); reflexivity.
    + destruct (xsub (GB.score_VI E s1) (GB.prev_score s)); reflexivity.
  - intros p q f u -> -> -> ->. simpl.
    assert (Himp : match (f * u ?= q + - p)%Qc with
                   | Lt => true
                   | _ => false
                   end = true -> (f * u < q - p)%Qc).
    { unfold Qcminus. rewrite Qclt_alt.
      destruct (f * u ?= q + - p)%Qc; intros H; congruence. }
    split.
    + intros H. apply Himp. injection H as H'. exact H'.
    + intros Hqp Hm.
      assert (Hnot : ~ (f * u < q - p)%Qc).
      { intros Hlt. unfold Qcminus in Hlt. apply (Qcle_not_lt _ _ Hqp).
        apply Qclt_minus_iff. apply (Qcle_lt_trans _ _ _ Hm). exact Hlt. }
      f_equal. apply not_true_is_false. intros Ht. apply Hnot, Himp. exact Ht.
Qed.

Lemma bad_step_test_on_numbers_witness :
  (Scenario.q 2326 1000 * 1 < Scenario.q 20 1 - Scenario.q 10 1)%Qc.
Proof.
  destruct (@bad_step_test_on_numbers Scenario.E0 (Scenario.run 1) (Scenario.sampled 1))
    as (_ & H).
  - vm_compute. reflexivity.
  - apply (H (Scenario.q 10 1) (Scenario.q 20 1) (Scenario.q 2326 1000) 1%Qc).
    + vm_compute. reflexivity.
    + vm_compute. reflexivity.
    + vm_compute. reflexivity.
    + vm_compute. reflexivity.
    + vm_compute. reflexivity.
Defined.

(** ** Runs of the vanilla engine *)

(** a call to [update] of the vanilla engine that returns, step by step *)
Lemma GD_update_inv (E : Collab) (s s' : GD.Solver) :
  GD.update E s = Ok s' ->
  exists (n_step : nat) (a' : Accu) (ge stp p' : Vec) (m : Msg),
    let samples := draw E (GD._post s) (GD.count s) n_step in
    let oracle :=
      grad_kl E (GD.prior_param (GD.attrs s)) (GD._post_param s)
              (GD.n_grad_kl (GD.attrs s)) (GD.count s) in
    let mval := np_mean (par_eval E samples) in
    getitem (GD.per_step (GD.attrs s)) (GD.count s) = Ok n_step /\
    AccuSampleVal.add samples (par_eval E samples) (GD.accu s) = Ok a' /\
    GD.grad_expct E n_step (GD._post_param s) samples (par_eval E samples) = Ok ge /\
    GD.step (GD.eta s) (GD.temperature (GD.attrs s)) ge (fst oracle) = Ok stp /\
    vadd (GD._post_param s) stp = Ok p' /\
    s' = GD.print m
           (GD.set_count (GD.count s + 1)
              (GD.set_post_param p'
                 (GD.set_converged
                    (check_convergence E (GD.xtol (GD.attrs s)) (GD.kltol (GD.attrs s))
                                       (GD.converged s) (GD._post_param s) p')
                    (GD.set_hist_log
                       (HistVILog.add1 (GD._post_param s)
                          (xadd (Fin mval)
                                (xmul (Fin (GD.temperature (GD.attrs s))) (snd oracle)))
                          (snd oracle) (Fin mval) (GD.hist_log s))
                       (GD.set_accu a' s))))).
Proof.
  unfold GD.update. intros H.
  apply bind_Ok_inv in H. destruct H as (n_step & Hn & H).
  apply bind_Ok_inv in H. destruct H as (a' & Ha & H).
  apply bind_Ok_inv in H. destruct H as (ge & Hge & H).
  simpl in Hge, H.
  destruct (grad_kl E (GD.prior_param (GD.attrs s)) (GD._post_param s)
                    (GD.n_grad_kl (GD.attrs s)) (GD.count s)) as [gkl kl] eqn:Hor.
  apply bind_Ok_inv in H. destruct H as (stp & Hstp & H).
  apply bind_Ok_inv in H. destruct H as (p' & Hp & H).
  simpl in H.
  match type of H with
  | GD.msg_end_step ?x = _ => destruct (GD_msg_end_step_prints x) as [m Hm]
  end.
  rewrite Hm in H. inversion H.
  exists n_step, a', ge, stp, p', m. simpl.
  repeat split; assumption.
Qed.

Lemma tensordot_raises (shape : nat) (w : list Qc) (rows : list Vec) (e : exc) :
  tensordot shape w rows = Raise e -> e = ValueError.
Proof.
  revert rows. induction w as [ | x w IH]; intros [ | r rows] H; simpl in H;
    try (inversion H; reflexivity).
  destruct (tensordot shape w rows) as [acc | e'] eqn:Ht; simpl in H.
  - exact (vadd_raises _ _ H).
  - inversion H. subst. exact (IH rows Ht).
Qed.

(** X9. The vanilla engine raises [IndexError] exactly when its counter has
    run past the schedule [per_step], and the capacity error exactly when
    the batch scheduled for the step does not fit into what is left of the
    accumulator; any other failure is a shape error. *)
Theorem GD_update_failures (E : Collab) (s : GD.Solver) :
  (GD.update E s = Raise IndexError <->
   length (GD.per_step (GD.attrs s)) <= GD.count s) /\
  (GD.update E s = Raise FullMemory <->
   exists n_step : nat,
     getitem (GD.per_step (GD.attrs s)) (GD.count s) = Ok n_step /\
     n_tot (GD.accu s) < AccuSampleVal.n_filled (GD.accu s) + n_step) /\
  (forall e : exc,
      GD.update E s = Raise e -> e = IndexError \/ e = FullMemory \/ e = ValueError).
Proof.
  assert (Hpast : length (GD.per_step (GD.attrs s)) <= GD.count s ->
                  GD.update E s = Raise IndexError).
  { intros H. unfold GD.update, getitem. apply nth_error_None in H.
    rewrite H. reflexivity. }
  assert (Hin : forall n_step : nat,
             getitem (GD.per_step (GD.attrs s)) (GD.count s) = Ok n_step ->
             (n_tot (GD.accu s) < AccuSampleVal.n_filled (GD.accu s) + n_step ->
              GD.update E s = Raise FullMemory) /\
             (AccuSampleVal.n_filled (GD.accu s) + n_step <= n_tot (GD.accu s) ->
              forall e, GD.update E s = Raise e -> e = ValueError)).
  { intros n_step Hn. unfold GD.update. rewrite Hn. simpl.
    unfold AccuSampleVal.add. split.
    - intros Hlt. rewrite add_gen_overflow; [ reflexivity | ].
      simpl. rewrite draw_length. exact Hlt.
    - intros Hle e.
      destruct (@add_gen_fits
                  {| g_sample := draw E (GD._post s) (GD.count s) n_step;
                     g_ldens := None;
                     g_vals := par_eval E (draw E (GD._post s) (GD.count s) n_step) |}
                  (GD.accu s)) as [a' Ha'];
        [ simpl; rewrite draw_length; exact Hle | ].
      rewrite Ha'. simpl.
      destruct (GD.grad_expct E n_step (GD._post_param s) _ _) as [ge | e1] eqn:Hge;
        simpl.
      + destruct (grad_kl E _ _ _ _) as [gkl kl].
        destruct (GD.step (GD.eta s) (GD.temperature (GD.attrs s)) ge gkl)
          as [stp | e2] eqn:Hstp; simpl.
        * destruct (vadd (GD._post_param s) stp) as [p' | e3] eqn:Hp; simpl.
          -- match goal with
             | |- GD.msg_end_step ?x = _ -> _ =>
                 destruct (GD_msg_end_step_prints x) as [m Hm]; rewrite Hm
             end.
             discriminate.
          -- intros H. inversion H. subst. exact (vadd_raises _ _ Hp).
        * intros H. inversion H. subst. unfold GD.step in Hstp.
          destruct (vadd ge (vscale (GD.temperature (GD.attrs s)) gkl)) eqn:Hv;
            simpl in Hstp; [ discriminate Hstp | ].
          inversion Hstp. subst. exact (vadd_raises _ _ Hv).
      + intros H. inversion H. subst. unfold GD.grad_expct in Hge.
        destruct (tensordot _ _ _) eqn:Ht; simpl in Hge; [ discriminate Hge | ].
        inversion Hge. subst. exact (tensordot_raises _ _ _ Ht). }
  assert (Hcases : length (GD.per_step (GD.attrs s)) <= GD.count s \/
                   exists n_step, getitem (GD.per_step (GD.attrs s)) (GD.count s)
                                  = Ok n_step).
  { destruct (Nat.lt_ge_cases (GD.count s) (length (GD.per_step (GD.attrs s))))
      as [Hlt | Hge]; [ right; apply getitem_in_range; exact Hlt | left; exact Hge ]. }
  split; [ | split ].
  - split; [ | exact Hpast ].
    intros H. destruct Hcases as [Hge | [n_step Hn]]; [ exact Hge | ].
    destruct (Hin n_step Hn) as [Hfull Hval].
    destruct (Nat.lt_ge_cases (n_tot (GD.accu s))
                              (AccuSampleVal.n_filled (GD.accu s) + n_step))
      as [Hlt | Hle].
    + rewrite (Hfull Hlt) in H. discriminate H.
    + specialize (Hval Hle _ H). discriminate Hval.
  - split.
    + intros H. destruct Hcases as [Hge | [n_step Hn]].
      * rewrite (Hpast Hge) in H. discriminate H.
      * exists n_step. split; [ exact Hn | ].
        destruct (Hin n_step Hn) as [_ Hval].
        destruct (Nat.lt_ge_cases (n_tot (GD.accu s))
                                  (AccuSampleVal.n_filled (GD.accu s) + n_step))
          as [Hlt | Hle]; [ exact Hlt | ].
        specialize (Hval Hle _ H). discriminate Hval.
    + intros (n_step & Hn & Hlt). destruct (Hin n_step Hn) as [Hfull _].
      exact (Hfull Hlt).
  - intros e H. destruct Hcases as [Hge | [n_step Hn]].
    + rewrite (Hpast Hge) in H. inversion H. left. reflexivity.
    + destruct (Hin n_step Hn) as [Hfull Hval].
      destruct (Nat.lt_ge_cases (n_tot (GD.accu s))
                                (AccuSampleVal.n_filled (GD.accu s) + n_step))
        as [Hlt | Hle].
      * rewrite (Hfull Hlt) in H. inversion H. right. left. reflexivity.
      * right. right. exact (Hval Hle _ H).
Qed.

Lemma GD_update_failures_witness :
  GD.update Scenario.E0 (Scenario.gd_run 3) = Raise IndexError.
Proof.
  destruct (GD_update_failures Scenario.E0 (Scenario.gd_run 3)) as ([_ H] & _).
  apply H. vm_compute. lia.
Defined.

Lemma GD_update_fields (E : Collab) (s s' : GD.Solver) :
  GD.update E s = Ok s' ->
  GD.count s' = GD.count s + 1 /\
  GD.attrs s' = GD.attrs s /\
  GD.eta s' = GD.eta s /\
  (exists r : HistRecord,
      GD.hist_log s' = GD.hist_log s ++ [r] /\ proba_par r = GD._post_param s) /\
  (exists g : Generation,
      gens (GD.accu s') = gens (GD.accu s) ++ [g] /\
      n_tot (GD.accu s') = n_tot (GD.accu s) /\
      getitem (GD.per_step (GD.attrs s)) (GD.count s) = Ok (length (g_sample g))).
Proof.
  intros H. apply GD_update_inv in H.
  destruct H as (n_step & a' & ge & stp & p' & m & Hn & Ha & _ & _ & _ & ->).
  simpl. unfold AccuSampleVal.add in Ha. apply n_filled_add_gen in Ha.
  destruct Ha as (Hnt & Hga & _).
  repeat split.
  - eexists. unfold HistVILog.add1. split; reflexivity.
  - eexists. split; [ exact Hga | ]. split; [ exact Hnt | ].
    simpl. rewrite draw_length. exact Hn.
Qed.

(** X10. The vanilla engine never rejects: after [n] calls that returned,
    from any solver, the counter has moved by [n], the log has gained [n]
    records and lost none, the first of them holding the parameter the run
    started from, the accumulator has gained [n] generations, and the
    learning rate and the configuration are untouched. *)
Theorem GD_run_accounting (E : Collab) (n : nat) (s0 s : GD.Solver) :
  GD.iterate E n s0 = Ok s ->
  GD.count s = GD.count s0 + n /\
  GD.attrs s = GD.attrs s0 /\
  GD.eta s = GD.eta s0 /\
  (exists rs : list HistRecord,
      GD.hist_log s = GD.hist_log s0 ++ rs /\
      length rs = n /\
      match rs with
      | [] => n = 0
      | r :: _ => proba_par r = GD._post_param s0
      end) /\
  (exists gs : list Generation,
      gens (GD.accu s) = gens (GD.accu s0) ++ gs /\ length gs = n).
Proof.
  revert s0. induction n as [ | n IH]; intros s0 H.
  - inversion H. subst. split; [ lia | ]. split; [ reflexivity | ].
    split; [ reflexivity | ].
    split; exists []; rewrite app_nil_r; repeat split.
  - simpl in H. apply bind_Ok_inv in H. destruct H as (s1 & H1 & H).
    apply GD_update_fields in H1.
    destruct H1 as (Hc1 & Ha1 & He1 & (r & Hh1 & Hr) & (g & Hg1 & _)).
    apply IH in H.
    destruct H as (Hc & Ha & He & (rs & Hh & Hl & _) & (gs & Hg & Hlg)).
    split; [ lia | ]. split; [ congruence | ]. split; [ congruence | ].
    split.
    + exists (r :: rs). rewrite Hh, Hh1, <- app_assoc. simpl.
      split; [ reflexivity | ]. split; [ lia | exact Hr ].
    + exists (g :: gs). rewrite Hg, Hg1, <- app_assoc. simpl.
      split; [ reflexivity | lia ].
Qed.

Lemma GD_run_accounting_witness :
  GD.count (Scenario.gd_run 3) = 3 /\
  exists rs : list HistRecord,
    GD.hist_log (Scenario.gd_run 3) = rs /\ length rs = 3.
Proof.
  destruct (@GD_run_accounting Scenario.E0 3 (GD.init Scenario.c0) (Scenario.gd_run 3))
    as (H1 & _ & _ & (rs & H2 & H3 & _) & _).
  - vm_compute. reflexivity.
  - split; [ exact H1 | ]. exists rs. split; [ exact H2 | exact H3 ].
Defined.

(** ** The sample budget *)

Lemma firstn_succ_getitem (l : list nat) (k x : nat) :
  getitem l k = Ok x -> firstn (S k) l = firstn k l ++ [x].
Proof.
  unfold getitem. revert k. induction l as [ | y l IH]; intros [ | k] H; simpl in H;
    try discriminate H.
  - inversion H. reflexivity.
  - simpl. rewrite <- (IH k H). reflexivity.
Qed.

(** X11. The stable accumulator follows the schedule: after [n] calls of a
    run of the robust engine its generations have, in order, the sizes of
    the first [n] entries of [per_step], so it stores their sum, whatever
    was rejected. *)
Theorem stable_accu_follows_schedule
        (E : Collab) (c : Config) (n : nat) (s : GB.Solver) :
  GB.iterate E n (GB.init E c) = Ok s ->
  map (fun g => length (g_sample g)) (gens (GB.stable_accu s)) =
  firstn n (c_per_step c) /\
  AccuSampleVal.n_filled (GB.stable_accu s) = sum_nat (firstn n (c_per_step c)).
Proof.
  intros Hrun.
  destruct (count_iterate E n _ Hrun) as (Hcnt & _ & Hgat).
  destruct (init_fields E c) as (_ & _ & Hc0 & Hps & _).
  rewrite Hc0 in Hcnt. simpl in Hcnt.
  assert (Hinv : map (fun g => length (g_sample g)) (gens (GB.stable_accu s)) =
                 firstn (GD.count (GB.base s)) (GD.per_step (GD.attrs (GB.base s)))).
  { revert Hrun.
    apply (iterate_invariant E
             (fun s => map (fun g => length (g_sample g)) (gens (GB.stable_accu s)) =
                       firstn (GD.count (GB.base s))
                              (GD.per_step (GD.attrs (GB.base s))))).
    - intros s0 s1 Hm Hupd.
      rewrite (update_count E _ Hupd).
      destruct (update_attrs E _ Hupd) as [_ ->].
      apply update_stable_accu in Hupd. destruct Hupd as (g & Hd & Hgs & _).
      rewrite Hgs, map_app, Hm, Nat.add_1_r. simpl.
      unfold GB.drawn in Hd.
      apply bind_Ok_inv in Hd. destruct Hd as (k & Hk & Hd).
      unfold gen_eval_samp in Hd. inversion Hd. simpl.
      rewrite draw_length. symmetry. apply firstn_succ_getitem. exact Hk.
    - destruct (init_fields E c) as (_ & _ & -> & _ & _ & _ & -> & _). reflexivity. }
  rewrite Hcnt, Hgat, Hps in Hinv.
  split; [ exact Hinv | ].
  unfold AccuSampleVal.n_filled. rewrite Hinv. reflexivity.
Qed.

Lemma stable_accu_follows_schedule_witness :
  AccuSampleVal.n_filled (GB.stable_accu (Scenario.run 3)) = 6.
Proof.
  destruct (@stable_accu_follows_schedule Scenario.E0 Scenario.c0 3 (Scenario.run 3))
    as (_ & H).
  - vm_compute. reflexivity.
  - rewrite H. reflexivity.
Defined.

(** ** An accepted step, entry by entry *)

(** X12. A step of the robust engine that is classified as not bad and
    returns: the new momentum is, on each entry, the raw increment
    [- eta * (der_score + temperature * der_KL)], replaced by zero on a
    frozen entry, plus [momentum] times the momentum before; the new
    parameter is the parameter before plus the new momentum; both have
    the shape of the family; the score of the step becomes the previous
    score; the learning rate and the bin log are untouched and the
    accumulator keeps the generation just drawn. *)
Theorem GB_accepted_step (E : Collab) (s s1 s' : GB.Solver) :
  GB.gen_sample E s = Ok s1 ->
  GB.classify E s = Ok false ->
  GB.update E s = Ok s' ->
  let b := GB.base s in
  length (GB.v s') = proba_param_shape E /\
  length (GD._post_param (GB.base s')) = proba_param_shape E /\
  (forall i : nat,
      nth i (GB.v s') 0%Qc =
      ((if existsb (Nat.eqb i) (GD.index_no_train (GD.attrs b))
        then 0
        else - GD.eta b * (nth i (GB.der_score E s1) 0
                           + GD.temperature (GD.attrs b) * nth i (GB.der_KL E s1) 0))
       + nth i (GB.v s) 0 * GB.momentum (GB.attrs s))%Qc) /\
  (forall i : nat,
      nth i (GD._post_param (GB.base s')) 0%Qc =
      (nth i (GD._post_param b) 0 + nth i (GB.v s') 0)%Qc) /\
  GB.prev_score s' = GB.score_VI E s1 /\
  GD.eta (GB.base s') = GD.eta b /\
  GB.bin_log s' = GB.bin_log s /\
  GD.accu (GB.base s') = GD.accu (GB.base s1).
Proof.
  intros Hg Hc Hupd b.
  destruct (gen_sample_frame E s Hg)
    as (_ & Hat & _ & Hv & Hbin & _ & Heta & Hpar & Hgat & _).
  destruct (update_cases_from E _ Hg Hupd) as (s2 & Hf & [[Hb _] | [_ Hs]]).
  { unfold GB.classify in Hc. rewrite Hg in Hc. simpl in Hc.
    rewrite Hb in Hc. discriminate Hc. }
  apply finish_frame in Hf.
  destruct Hf as (Fv & Fps & Fbin & _ & _ & _ & Feta & Fpar & _ & Facc & _).
  rewrite Fv, Fps, Fbin, Feta, Fpar, Facc.
  apply good_step_inv in Hs. destruct Hs as (v' & p' & Hnv & Hp & ->).
  simpl.
  apply new_v_inv in Hnv. destruct Hnv as (_ & _ & _ & Hlv' & Hn).
  apply vadd_inv in Hp. destruct Hp as [Hlp ->].
  rewrite Heta, Hgat, Hv, Hat in Hn.
  rewrite Hpar in Hlp |- *.
  split; [ exact Hlv' | ].
  split; [ rewrite length_zip_with; [ congruence | exact Hlp ] | ].
  split; [ exact Hn | ].
  split; [ intros i; apply nth_zip_plus; exact Hlp | ].
  split; [ reflexivity | ]. split; [ exact Heta | ]. split; [ exact Hbin | reflexivity ].
Qed.

Lemma GB_accepted_step_witness :
  nth 1 (GD._post_param (GB.base (Scenario.run 1))) 0%Qc =
  (nth 1 (GD._post_param (GB.base (Scenario.run 0))) 0
   + nth 1 (GB.v (Scenario.run 1)) 0)%Qc /\
  GB.prev_score (Scenario.run 1) = GB.score_VI Scenario.E0 (Scenario.sampled 0).
Proof.
  destruct (@GB_accepted_step Scenario.E0 (Scenario.run 0) (Scenario.sampled 0)
                              (Scenario.run 1))
    as (_ & _ & _ & H1 & H2 & _).
  - vm_compute. reflexivity.
  - vm_compute. reflexivity.
  - vm_compute. reflexivity.
  - split; [ exact (H1 1) | exact H2 ].
Defined.

(** ** The batch mean as a baseline *)

Lemma Qc_of_nat_S (n : nat) : Qc_of_nat (S n) = (Qc_of_nat n + 1)%Qc.
Proof.
  unfold Qc_of_nat, Qcplus. apply Q2Qc_eq_iff. cbn [this Q2Qc].
  rewrite !Qred_correct, Nat2Z.inj_succ. unfold Z.succ.
  rewrite inject_Z_plus. reflexivity.
Qed.

Lemma Qc_of_nat_nonzero (n : nat) : 0 < n -> Qc_of_nat n <> 0%Qc.
Proof.
  intros Hpos Heq. unfold Qc_of_nat in Heq.
  change 0%Qc with (Q2Qc 0) in Heq. apply Q2Qc_eq_iff in Heq.
  unfold Qeq, inject_Z in Heq. simpl in Heq. lia.
Qed.

Lemma sum_Qc_shift (k : Qc) (l : list Qc) :
  sum_Qc (map (fun x => x + k)%Qc l) = (sum_Qc l + Qc_of_nat (length l) * k)%Qc.
Proof.
  induction l as [ | x l IH].
  - simpl. change (Qc_of_nat 0) with 0%Qc. ring.
  - change (sum_Qc (map (fun x => x + k)%Qc (x :: l)))
      with ((x + k) + sum_Qc (map (fun x => x + k)%Qc l))%Qc.
    change (sum_Qc (x :: l)) with (x + sum_Qc l)%Qc.
    change (length (x :: l)) with (S (length l)).
    rewrite IH, Qc_of_nat_S. ring.
Qed.

Lemma np_mean_shift (k : Qc) (l : list Qc) :
  l <> [] -> np_mean (map (fun x => x + k)%Qc l) = (np_mean l + k)%Qc.
Proof.
  intros Hne. unfold np_mean. rewrite sum_Qc_shift, length_map.
  assert (Hn : Qc_of_nat (length l) <> 0%Qc).
  { apply Qc_of_nat_nonzero. destruct l; [ congruence | simpl; lia ]. }
  field. exact Hn.
Qed.

(** shifting every value of a batch leaves the score-function gradient as
    it is *)
Lemma grad_expct_shift (E : Collab) (k : Qc) (n : nat) (param : Vec)
      (samples : list Sample) (vals : list Qc) :
  vals <> [] ->
  GD.grad_expct E n param samples (map (fun x => x + k)%Qc vals) =
  GD.grad_expct E n param samples vals.
Proof.
  intros Hne. unfold GD.grad_expct.
  rewrite (np_mean_shift k Hne), map_map.
  replace (map (fun x : Qc => x + k - (np_mean vals + k))%Qc vals)
    with (map (fun x : Qc => x - np_mean vals)%Qc vals); [ reflexivity | ].
  apply map_ext. intros x. ring.
Qed.

(** X13. The batch mean is a baseline: when a constant is added to the
    loss, a step of the vanilla engine on a batch that is not empty
    returns as before and commits the same parameter, with the same
    counter, learning rate and convergence flag; the record it logs has
    the same parameter and KL, and a mean shifted by the constant. *)
Theorem GD_update_shift_invariant
        (E : Collab) (k : Qc) (s s' : GD.Solver) (n_t : nat) :
  getitem (GD.per_step (GD.attrs s)) (GD.count s) = Ok n_t ->
  0 < n_t ->
  GD.update E s = Ok s' ->
  exists (s'' : GD.Solver) (r r' : HistRecord),
    GD.update (shift_loss k E) s = Ok s'' /\
    GD._post_param s'' = GD._post_param s' /\
    GD._post s'' = GD._post s' /\
    GD.count s'' = GD.count s' /\
    GD.eta s'' = GD.eta s' /\
    GD.converged s'' = GD.converged s' /\
    GD.hist_log s' = GD.hist_log s ++ [r] /\
    GD.hist_log s'' = GD.hist_log s ++ [r'] /\
    proba_par r' = proba_par r /\
    KL r' = KL r /\
    mean r' = xadd (mean r) (Fin k).
Proof.
  intros Hn Hpos H. apply GD_update_inv in H.
  destruct H as (n0 & a' & ge & stp & p' & m & Hn0 & Ha & Hge & Hstp & Hp & ->).
  rewrite Hn in Hn0. inversion Hn0. subst n0. clear Hn0.
  set (samples := draw E (GD._post s) (GD.count s) n_t) in *.
  assert (Hvals : par_eval (shift_loss k E) samples =
                  map (fun x => x + k)%Qc (par_eval E samples)).
  { unfold par_eval. rewrite map_map. reflexivity. }
  assert (Hne : par_eval E samples <> []).
  { intros Hnil. apply (f_equal (@length Qc)) in Hnil.
    unfold par_eval in Hnil. rewrite length_map in Hnil.
    unfold samples in Hnil. rewrite draw_length in Hnil. simpl in Hnil. lia. }
  unfold AccuSampleVal.add in Ha. apply n_filled_add_gen in Ha.
  destruct Ha as (_ & _ & _ & Hroom). simpl in Hroom.
  destruct (@add_gen_fits
              {| g_sample := samples; g_ldens := None;
                 g_vals := par_eval (shift_loss k E) samples |}
              (GD.accu s) Hroom) as [a'' Ha''].
  assert (Hge' : GD.grad_expct (shift_loss k E) n_t (GD._post_param s) samples
                               (par_eval (shift_loss k E) samples) = Ok ge).
  { rewrite Hvals.
    change (GD.grad_expct (shift_loss k E) n_t (GD._post_param s) samples
                          (map (fun x => x + k)%Qc (par_eval E samples)))
      with (GD.grad_expct E n_t (GD._post_param s) samples
                          (map (fun x => x + k)%Qc (par_eval E samples))).
    rewrite (grad_expct_shift E k n_t (GD._post_param s) samples Hne). exact Hge. }
  set (oracle := grad_kl E (GD.prior_param (GD.attrs s)) (GD._post_param s)
                         (GD.n_grad_kl (GD.attrs s)) (GD.count s)) in *.
  set (mval' := np_mean (par_eval (shift_loss k E) samples)).
  set (s2 := GD.set_count (GD.count s + 1)
               (GD.set_post_param p'
                  (GD.set_converged
                     (check_convergence E (GD.xtol (GD.attrs s)) (GD.kltol (GD.attrs s))
                                        (GD.converged s) (GD._post_param s) p')
                     (GD.set_hist_log
                        (HistVILog.add1 (GD._post_param s)
                           (xadd (Fin mval')
                                 (xmul (Fin (GD.temperature (GD.attrs s))) (snd oracle)))
                           (snd oracle) (Fin mval') (GD.hist_log s))
                        (GD.set_accu a'' s))))).
  destruct (GD_msg_end_step_prints s2) as [m' Hm'].
  exists (GD.print m' s2). eexists. eexists.
  split.
  { unfold GD.update. rewrite Hn. simpl.
    change (draw (shift_loss k E) (GD._post s) (GD.count s) n_t) with samples.
    unfold AccuSampleVal.add. rewrite Ha''. simpl.
    rewrite Hge'. simpl.
    change (grad_kl E (GD.prior_param (GD.attrs s)) (GD._post_param s)
                    (GD.n_grad_kl (GD.attrs s)) (GD.count s)) with oracle.
    destruct oracle as [gkl kl] eqn:Hor. simpl in *.
    rewrite Hstp. simpl. rewrite Hp. simpl. exact Hm'. }
  simpl. unfold HistVILog.add1.
  repeat (split; [ reflexivity | ]).
  unfold mval'. rewrite Hvals, (np_mean_shift k Hne). reflexivity.
Qed.

Lemma GD_update_shift_invariant_witness :
  exists s'' : GD.Solver,
    GD.update (shift_loss (Scenario.q 5 1) Scenario.E0) (GD.init Scenario.c0) = Ok s'' /\
    GD._post_param s'' = GD._post_param (Scenario.gd_run 1).
Proof.
  destruct (@GD_update_shift_invariant Scenario.E0 (Scenario.q 5 1) (GD.init Scenario.c0)
                                       (Scenario.gd_run 1) 2)
    as (s'' & r & r' & H1 & H2 & _).
  - reflexivity.
  - lia.
  - vm_compute. reflexivity.
  - exists s''. split; [ exact H1 | exact H2 ].
Defined.
